(** * storage-facade-indexeddb: the ordered key-value store over IndexedDB

    A shallow embedding of [src/index.ts] (class [IndexedDBInterface]) and of
    the IndexedDB primitives it drives, followed by the properties of the
    ordinal bookkeeping, of the value copies and of the deleted state. *)

From stdpp Require Import base list strings sorting gmap.
From Stdlib Require Import ZArith Lia.

Local Open Scope Z_scope.

(** ** JavaScript values and the heap

    A value is a primitive or a reference to an object of the heap; an object
    is its list of own properties (an array is an object whose property names
    are its positions).  Two variables holding the same [JsRef] are aliases of
    one mutable object. *)

Inductive JsValue :=
| JsUndefined
| JsNull
| JsBoolean (b : bool)
| JsNumber (n : Z)
| JsString (s : string)
| JsRef (l : nat).

Abbreviation JsObject := (list (string * JsValue)).
Abbreviation Heap := (list JsObject).

#[global] Instance JsValue_eq_dec : EqDecision JsValue.
Proof. solve_decision. Defined.

(** [obj.p = v] on the object at location [l]. *)
Fixpoint assignProperty (p : string) (v : JsValue) (o : JsObject) : JsObject :=
  match o with
  | [] => [(p, v)]
  | (q, x) :: o' =>
      if decide (q = p) then (p, v) :: o' else (q, x) :: assignProperty p v o'
  end.

Definition setProperty (l : nat) (p : string) (v : JsValue) (h : Heap) : Heap :=
  match h !! l with
  | Some o => <[l := assignProperty p v o]> h
  | None => h
  end.

(** What a value looks like from outside, down to depth [n]: the tree that
    deep equality ([toEqual]) compares. *)
#[warnings="-register-all"]
Inductive Shape :=
| ShUndefined
| ShNull
| ShBoolean (b : bool)
| ShNumber (n : Z)
| ShString (s : string)
| ShObject (props : list (string * Shape))
| ShDangling
| ShDeeper.

Fixpoint shape (n : nat) (h : Heap) (v : JsValue) : Shape :=
  match v with
  | JsUndefined => ShUndefined
  | JsNull => ShNull
  | JsBoolean b => ShBoolean b
  | JsNumber z => ShNumber z
  | JsString s => ShString s
  | JsRef l =>
      match n with
      | O => ShDeeper
      | S n' =>
          match h !! l with
          | Some o => ShObject ((λ px, (px.1, shape n' h px.2)) <$> o)
          | None => ShDangling
          end
      end
  end.

(** [v1] seen in heap [h1] is deeply equal to [v2] seen in heap [h2]. *)
Definition deepEqual (h1 : Heap) (v1 : JsValue) (h2 : Heap) (v2 : JsValue) : Prop :=
  ∀ n, shape n h1 v1 = shape n h2 v2.

(** ** Structured clone

    IndexedDB stores a structured clone of what [add]/[put] receive and hands
    out a fresh structured clone on every read.  The serialized form is the
    value together with the frozen objects it points into; deserializing
    allocates copies of them at fresh locations of the reader's heap. *)

Record Serialized := mkSerialized { frozen : Heap; root : JsValue }.

Definition relocateValue (d : nat) (v : JsValue) : JsValue :=
  match v with
  | JsRef l => JsRef (d + l)
  | _ => v
  end.

Definition relocateObject (d : nat) (o : JsObject) : JsObject :=
  (λ px, (px.1, relocateValue d px.2)) <$> o.

Definition StructuredSerialize (h : Heap) (v : JsValue) : Serialized :=
  {| frozen := h; root := v |}.

Definition StructuredDeserialize (h : Heap) (s : Serialized) : Heap * JsValue :=
  (h ++ (relocateObject (length h) <$> frozen s),
   relocateValue (length h) (root s)).

(** ** Records of the object store *)

(** [interface Entry { index: number; key: string; value: unknown }], as the
    object store keeps it.  [index] only ever holds the integers the class
    computes (a count of records, far below 2^53), so it is an integer here. *)
Record Entry := mkEntry { index : Z; key : string; value : Serialized }.

(** The object store is created with [autoIncrement: true] and no key path:
    a record is a primary key with an entry, the records are kept in ascending
    primary-key order, and the key generator holds the next key to hand out. *)
Definition StoredRecord := (Z * Entry)%type.

Record ObjectStore := mkObjectStore {
  records : list StoredRecord;
  keyGenerator : Z
}.

(** [keys.getKey(key)]: the primary key of the first record of the unique
    index [keys] (on field [key]) with that key. *)
Definition keysGetKey (k : string) (rs : list StoredRecord) : option Z :=
  fst <$> find (λ r, bool_decide (key r.2 = k)) rs.

(** [indexes.getKey(index)], on the unique index [indexes] (on field [index]). *)
Definition indexesGetKey (i : Z) (rs : list StoredRecord) : option Z :=
  fst <$> find (λ r, bool_decide (index r.2 = i)) rs.

(** [objectStore.get(primaryKey)]. *)
Definition getRecord (pk : Z) (rs : list StoredRecord) : option Entry :=
  snd <$> find (λ r, bool_decide (r.1 = pk)) rs.

(** The index [indexes] lists the records by ascending [index] field. *)
Definition byIndex (a b : StoredRecord) : Prop := index a.2 ≤ index b.2.

#[global] Instance byIndex_dec : RelDecision byIndex.
Proof. intros a b. unfold byIndex. apply _. Defined.

Definition indexesView (rs : list StoredRecord) : list StoredRecord :=
  merge_sort byIndex rs.

(** [index.openCursor(null, 'prev')]: the cursor walks the index downwards,
    so its first position is the last record of the index, if any. *)
Definition openCursorPrev (rs : list StoredRecord) : option Entry :=
  snd <$> head (reverse (indexesView rs)).

(** A record violates a unique index when another record (one under a
    different primary key) already has its [index] or its [key]. *)
Definition violatesUnique (pk : Z) (e : Entry) (rs : list StoredRecord) : bool :=
  existsb (λ r, bool_decide (r.1 ≠ pk) &&
                (bool_decide (index r.2 = index e) || bool_decide (key r.2 = key e))) rs.

(** Writing a record under a primary key: replaces the record of that key or
    inserts at its place in key order. *)
Fixpoint storeRecord (pk : Z) (e : Entry) (rs : list StoredRecord) : list StoredRecord :=
  match rs with
  | [] => [(pk, e)]
  | r :: rs' =>
      if decide (pk < r.1) then (pk, e) :: r :: rs'
      else if decide (pk = r.1) then (pk, e) :: rs'
      else r :: storeRecord pk e rs'
  end.

(** [objectStore.add(entry)]: the key generator supplies the primary key;
    [None] is a ConstraintError. *)
Definition addRecord (e : Entry) (st : ObjectStore) : option ObjectStore :=
  let pk := keyGenerator st in
  if bool_decide (is_Some (getRecord pk (records st))) || violatesUnique pk e (records st)
  then None
  else Some {| records := storeRecord pk e (records st); keyGenerator := pk + 1 |}.

(** [objectStore.put(entry, primaryKey)]; an explicit key at or above the
    generator's number moves the generator past it. *)
Definition putRecord (e : Entry) (pk : Z) (st : ObjectStore) : option ObjectStore :=
  if violatesUnique pk e (records st) then None
  else Some {| records := storeRecord pk e (records st);
               keyGenerator := Z.max (keyGenerator st) (pk + 1) |}.

(** [objectStore.delete(primaryKey)]. *)
Definition deleteRecord (pk : Z) (rs : list StoredRecord) : list StoredRecord :=
  filter (λ r, r.1 ≠ pk) rs.

(** [objectStore.openCursor(IDBKeyRange.lowerBound(pk, false))]: the records
    whose primary key is at least [pk], in ascending key order. *)
Definition recordsFrom (pk : Z) (rs : list StoredRecord) : list StoredRecord :=
  filter (λ r, pk ≤ r.1) rs.

(** ** The Engine and the instance

    Every call the class makes on IndexedDB is a request.  The world holds the
    instance field [isDeleted], the object store, the requests sent so far
    (oldest first), the requests the Engine is going to fail (each with the
    name of the DOMException it reports), and the caller's heap. *)

Inductive JsError :=
| Error (message : string)
| DOMException (name : string).

Inductive Request :=
| ReqOpen
| ReqDeleteDatabase
| ReqKeysGetKey (k : string)
| ReqIndexesGetKey (i : Z)
| ReqGet (pk : Z)
| ReqAdd (e : Entry)
| ReqPut (e : Entry) (pk : Z)
| ReqDelete (pk : Z)
| ReqOpenCursor (lower : Z)
| ReqContinue
| ReqOpenCursorPrev
| ReqClear
| ReqCount.

Record World := mkWorld {
  isDeleted : bool;
  database : ObjectStore;
  failure : Request → option string;
  log : list Request;
  heap : Heap
}.

Definition setIsDeleted (b : bool) (w : World) : World :=
  mkWorld b (database w) (failure w) (log w) (heap w).
Definition setDatabase (st : ObjectStore) (w : World) : World :=
  mkWorld (isDeleted w) st (failure w) (log w) (heap w).
Definition logged (r : Request) (w : World) : World :=
  mkWorld (isDeleted w) (database w) (failure w) (log w ++ [r]) (heap w).
Definition setHeap (h : Heap) (w : World) : World :=
  mkWorld (isDeleted w) (database w) (failure w) (log w) h.

(** How the promise an operation returns ends up. *)
Inductive Promise (A : Type) :=
| Fulfilled (a : A)
| Rejected (e : JsError)
| Pending.
Arguments Fulfilled {A} a.
Arguments Rejected {A} e.
Arguments Pending {A}.

Definition Op (A : Type) : Type := World → Promise A * World.

#[global] Instance Op_ret : MRet Op := λ A a w, (Fulfilled a, w).
#[global] Instance Op_bind : MBind Op := λ A B k m w,
  match m w with
  | (Fulfilled a, w') => k a w'
  | (Rejected e, w') => (Rejected e, w')
  | (Pending, w') => (Pending, w')
  end.

Definition neverSettles {A} : Op A := λ w, (Pending, w).
Definition getHeap : Op Heap := λ w, (Fulfilled (heap w), w).

(** One request: it is sent (logged); the Engine fails it ([onerror]) or
    serves it ([onsuccess]); a violated unique index is a ConstraintError. *)
Definition request {A} (r : Request)
    (serve : ObjectStore → option (A * ObjectStore)) : Op A := λ w,
  let w' := logged r w in
  match failure w r with
  | Some name => (Rejected (DOMException name), w')
  | None =>
      match serve (database w) with
      | Some (a, st) => (Fulfilled a, setDatabase st w')
      | None => (Rejected (DOMException "ConstraintError"), w')
      end
  end.

(** [db.transaction(...)]: a request that fails, or a handler that throws,
    aborts the transaction, which puts the object store and its key generator
    back as they were when it started. *)
Definition transaction {A} (body : Op A) : Op A := λ w,
  match body w with
  | (Fulfilled a, w') => (Fulfilled a, w')
  | (Rejected e, w') => (Rejected e, setDatabase (database w) w')
  | (Pending, w') => (Pending, setDatabase (database w) w')
  end.

(** A request sent with no handler and not waited for: the caller goes on
    whatever becomes of it; when it fails its transaction aborts, and it is
    the only write of its transaction.  The next operation on the store runs
    in a later transaction, which starts once this one has finished, so it
    sees the write. *)
Definition notAwaited (op : Op unit) : Op unit := λ w,
  match op w with
  | (Fulfilled a, w') => (Fulfilled a, w')
  | (_, w') => (Fulfilled (), setDatabase (database w) w')
  end.

Definition indexedDB_open : Op unit :=
  request ReqOpen (λ st, Some ((), st)).
Definition keys_getKey (k : string) : Op (option Z) :=
  request (ReqKeysGetKey k) (λ st, Some (keysGetKey k (records st), st)).
Definition indexes_getKey (i : Z) : Op (option Z) :=
  request (ReqIndexesGetKey i) (λ st, Some (indexesGetKey i (records st), st)).
Definition objectStore_get (pk : Z) : Op (option Entry) :=
  request (ReqGet pk) (λ st, Some (getRecord pk (records st), st)).
Definition objectStore_add (e : Entry) : Op unit :=
  request (ReqAdd e) (λ st, (λ st', ((), st')) <$> addRecord e st).
Definition objectStore_put (e : Entry) (pk : Z) : Op unit :=
  request (ReqPut e pk) (λ st, (λ st', ((), st')) <$> putRecord e pk st).
Definition objectStore_delete (pk : Z) : Op unit :=
  request (ReqDelete pk)
    (λ st, Some ((), mkObjectStore (deleteRecord pk (records st)) (keyGenerator st))).
Definition objectStore_openCursor (lower : Z) : Op (list StoredRecord) :=
  request (ReqOpenCursor lower) (λ st, Some (recordsFrom lower (records st), st)).
Definition cursor_continue : Op unit :=
  request ReqContinue (λ st, Some ((), st)).
Definition indexes_openCursor_prev : Op (option Entry) :=
  request ReqOpenCursorPrev (λ st, Some (openCursorPrev (records st), st)).
Definition objectStore_clear : Op unit :=
  request ReqClear (λ st, Some ((), mkObjectStore [] (keyGenerator st))).
Definition objectStore_count : Op Z :=
  request ReqCount (λ st, Some (Z.of_nat (length (records st)), st)).
(** [indexedDB.deleteDatabase(dbName)]: the database and all it held are gone. *)
Definition indexedDB_deleteDatabase : Op unit :=
  request ReqDeleteDatabase (λ _, Some ((), mkObjectStore [] 1)).

(** ** class IndexedDBInterface

    Each method is the chain of handlers of the source read in the order they
    fire: [onerror] is the rejection a failed request propagates, [onsuccess]
    the continuation.  [db.close()] releases the connection and changes
    nothing the world keeps.  A method runs to the end before the caller goes
    on: the caller awaits it. *)

(** [checkStorage()]. *)
Definition checkStorage : Op unit := λ w,
  if isDeleted w then (Rejected (Error "This Storage was deleted!"), w)
  else (Fulfilled (), w).

(** A record read from the object store reaches the handler as a fresh
    copy: resolving with its [value] hands the caller objects newly allocated
    in the caller's heap. *)
Definition resolveCopy (s : Serialized) : Op JsValue := λ w,
  let (h, v) := StructuredDeserialize (heap w) s in (Fulfilled v, setHeap h w).

(** [getItemAsync(key)]. *)
Definition getItemAsync (key : string) : Op JsValue :=
  checkStorage;;
  indexedDB_open;;
  transaction (
    getKeyRequest ← keys_getKey key;
    match getKeyRequest with
    | Some pk =>
        getValueRequest ← objectStore_get pk;
        match getValueRequest with
        | Some entry => resolveCopy (value entry)
        | None => neverSettles
        end
    | None => mret JsUndefined
    end).

(** [setItemAsync(key, value)]. *)
Definition setItemAsync (key : string) (value : JsValue) : Op unit :=
  checkStorage;;
  indexedDB_open;;
  transaction (
    getKeyRequest ← keys_getKey key;
    match getKeyRequest with
    | None =>
        openCursorRequest ← indexes_openCursor_prev;
        let lastObjectIndex :=
          match openCursorRequest with
          | Some last => index last
          | None => -1
          end in
        h ← getHeap;
        let newEntry :=
          mkEntry (lastObjectIndex + 1) key (StructuredSerialize h value) in
        notAwaited (objectStore_add newEntry)
    | Some pk =>
        getEntryRequest ← objectStore_get pk;
        match getEntryRequest with
        | Some (mkEntry entryIndex entryKey _) =>
            h ← getHeap;
            objectStore_put
              (mkEntry entryIndex entryKey (StructuredSerialize h value)) pk
        | None => neverSettles
        end
    end).

(** [currentEntry.index -= 1]. *)
Definition decrement (e : Entry) : Entry :=
  mkEntry (index e - 1) (key e) (value e).

(** The cursor loop of [removeItemAsync]: at each record of the range,
    [currentEntry.index -= 1], [put] under the same primary key,
    [cursor.continue()]; past the last record the cursor is [null].  A [put]
    rewrites only the record under the cursor, so the walk meets the records
    of the range as they were when the cursor was opened. *)
Fixpoint compact (range : list StoredRecord) : Op unit :=
  match range with
  | [] => mret ()
  | (currentKey, currentEntry) :: rest =>
      objectStore_put (decrement currentEntry) currentKey;;
      cursor_continue;;
      compact rest
  end.

(** [removeItemAsync(key)]. *)
Definition removeItemAsync (key : string) : Op unit :=
  checkStorage;;
  indexedDB_open;;
  transaction (
    getKeyRequest ← keys_getKey key;
    match getKeyRequest with
    | None => mret ()
    | Some keyToDel =>
        objectStore_delete keyToDel;;
        range ← objectStore_openCursor keyToDel;
        compact range
    end).

(** [clearAsync()]. *)
Definition clearAsync : Op unit :=
  checkStorage;;
  indexedDB_open;;
  transaction objectStore_clear.

(** [sizeAsync()]. *)
Definition sizeAsync : Op Z :=
  checkStorage;;
  indexedDB_open;;
  transaction objectStore_count.

(** [keyAsync(index)]; [None] is [undefined]. *)
Definition keyAsync (index : Z) : Op (option string) :=
  checkStorage;;
  indexedDB_open;;
  transaction (
    getKeyRequest ← indexes_getKey index;
    match getKeyRequest with
    | None => mret None
    | Some pk =>
        getEntryRequest ← objectStore_get pk;
        match getEntryRequest with
        | Some entry => mret (Some (key entry))
        | None => neverSettles
        end
    end).

(** [this.isDeleted = true; resolve(new Ok())]. *)
Definition markDeleted : Op unit := λ w, (Fulfilled (), setIsDeleted true w).

(** [deleteStorageAsync()]. *)
Definition deleteStorageAsync : Op unit :=
  checkStorage;;
  indexedDB_deleteDatabase;;
  markDeleted.

(** A store just initialized on a database that did not exist: no record,
    the key generator at 1, nothing sent yet, an Engine that fails nothing. *)
Definition freshWorld : World :=
  {| isDeleted := false;
     database := mkObjectStore [] 1;
     failure := λ _, None;
     log := [];
     heap := [] |}.

(** ** The facade layer above the class *)

(** Modelled from the spec: [entries()] lives in the facade package, which is
    not among the sources.  Section 4.1 has it consult the lifecycle guard
    first like every data operation, and yield the (key, value) pairs by
    ascending ordinal, each value copied as [get] copies it; it is built on
    [size], [keyAt] and [get]. *)
Fixpoint entriesFrom (n : nat) (ordinal : Z) : Op (list (string * JsValue)) :=
  match n with
  | O => mret []
  | S n' =>
      keyAt ← keyAsync ordinal;
      match keyAt with
      | Some k =>
          v ← getItemAsync k;
          rest ← entriesFrom n' (ordinal + 1);
          mret ((k, v) :: rest)
      | None => entriesFrom n' (ordinal + 1)
      end
  end.

Definition entries : Op (list (string * JsValue)) :=
  checkStorage;;
  size ← sizeAsync;
  entriesFrom (Z.to_nat size) 0.

(** Modelled from the spec: the Default Overlay and its consultation rule
    (section 4.2) live in the facade package, which is not among the sources.
    When [get] returns the unset sentinel ([undefined]) the overlay's value
    for the key is substituted if there is one, else the result is unset; any
    other result is returned as it is. *)
Definition getWithDefault (overlay : gmap string JsValue) (k : string) : Op JsValue :=
  v ← getItemAsync k;
  mret (if decide (v = JsUndefined) then default JsUndefined (overlay !! k) else v).

(** ** What the properties are stated with *)

(** The Engine fails no request. *)
Definition healthy (w : World) : Prop := ∀ r, failure w r = None.

(** What the Engine itself maintains: records in strictly ascending
    primary-key order, all below the key generator. *)
Record engineInvariant (st : ObjectStore) : Prop := {
  eng_sorted : StronglySorted Z.lt (records st).*1;
  eng_generator : Forall (λ r : StoredRecord, r.1 < keyGenerator st) (records st)
}.

(** What the class maintains on top: read in primary-key order the ordinals
    are 0, 1, ..., size-1, and no key occurs twice. *)
Record storeInvariant (st : ObjectStore) : Prop := {
  inv_engine : engineInvariant st;
  inv_ordinals :
    (λ r : StoredRecord, index r.2) <$> records st
    = seqZ 0 (Z.of_nat (length (records st)));
  inv_keys : NoDup ((λ r : StoredRecord, key r.2) <$> records st)
}.

(** The error [checkStorage] throws. *)
Definition storageDeleted : JsError := Error "This Storage was deleted!".

(** [currentMaxOrdinal] of the append path. *)
Definition lastObjectIndex (rs : list StoredRecord) : Z :=
  match openCursorPrev rs with
  | Some last => index last
  | None => -1
  end.

(** Closing the gap left at ordinal [i]. *)
Definition closeGap (i : Z) (r : StoredRecord) : StoredRecord :=
  if decide (i < index r.2) then (r.1, decrement r.2) else r.

(** The ordinals of the records a run of requests rewrote, as they were when
    the cursor stood on them, in the order of the writes. *)
Definition visitedOrdinals (l : list Request) : list Z :=
  omap (λ r, match r with ReqPut e _ => Some (index e + 1) | _ => None end) l.

(** Replacing the value of the record of key [k]. *)
Definition replaceValue (k : string) (s : Serialized) (r : StoredRecord) : StoredRecord :=
  if decide (key r.2 = k) then (r.1, mkEntry (index r.2) (key r.2) s) else r.

(** Serialized calls: each is awaited before the next is made. *)
Inductive Call :=
| CallSet (k : string) (v : JsValue)
| CallRemove (k : string).

Definition perform (c : Call) : Op unit :=
  match c with
  | CallSet k v => setItemAsync k v
  | CallRemove k => removeItemAsync k
  end.

Fixpoint performAll (cs : list Call) (w : World) : World :=
  match cs with
  | [] => w
  | c :: cs' => performAll cs' (perform c w).2
  end.

(** The keys that survive a sequence of calls, in the order they were
    inserted: setting a key that is not there puts it last, setting one that
    is there moves nothing, removing a key takes it out. *)
Definition afterCall (c : Call) (present : list string) : list string :=
  match c with
  | CallSet k _ => if decide (k ∈ present) then present else present ++ [k]
  | CallRemove k => filter (λ k', k' ≠ k) present
  end.

Fixpoint survivors (cs : list Call) (present : list string) : list string :=
  match cs with
  | [] => present
  | c :: cs' => survivors cs' (afterCall c present)
  end.

(** The keys of a store, in primary-key order. *)
Definition keysOf (w : World) : list string :=
  (λ r : StoredRecord, key r.2) <$> records (database w).

(** The (key, ordinal) pairs of a store, read along the ordinal index. *)
Definition ordinalsOf (w : World) : list (string * Z) :=
  (λ r : StoredRecord, (key r.2, index r.2)) <$> indexesView (records (database w)).

(** The requests the cursor loop sends over a range. *)
Definition compactionRequests (range : list StoredRecord) : list Request :=
  r ← range; [ReqPut (decrement r.2) r.1; ReqContinue].

(** An operation whose only rejections are the Engine's DOMExceptions. *)
Definition engineRejectionsOnly {A} (op : Op A) : Prop :=
  ∀ w m, (op w).1 ≠ Rejected (Error m).

(** ** Stores the properties are tried on *)

(** The store of the iteration test after its four inserts. *)
Definition sampleWorld : World :=
  performAll [CallSet "value" (JsNumber 10); CallSet "value2" (JsNumber 20);
              CallSet "value3" (JsNumber 30); CallSet "value4" (JsNumber 40)]
    freshWorld.

(** The caller of the copy test: [a = { c: [40, 42] }] sits at location 0,
    its array at location 1. *)
Definition callerWorld : World :=
  setHeap [[("c", JsRef 1)]; [("0", JsNumber 40); ("1", JsNumber 42)]] freshWorld.

(** An Engine that refuses to delete the database. *)
Definition refusingWorld : World :=
  mkWorld false (database sampleWorld)
    (λ r, match r with ReqDeleteDatabase => Some "UnknownError" | _ => None end)
    [] [].

(** ** What the further properties are stated with *)

(** The same world on an Engine that fails nothing. *)
Definition heal (w : World) : World :=
  mkWorld (isDeleted w) (database w) (λ _, None) (log w) (heap w).

(** An operation that never changes the object store nor the flag. *)
Definition keepsStore {A} (op : Op A) : Prop :=
  ∀ w, database (op w).2 = database w ∧ isDeleted (op w).2 = isDeleted w.

(** An operation that, unless its promise is fulfilled, leaves the object
    store as it was. *)
Definition allOrNothing {A} (op : Op A) : Prop :=
  ∀ w, match (op w).1 with
       | Fulfilled _ => True
       | _ => database (op w).2 = database w
       end.

(** An operation whose fulfilled runs are the runs of the healthy Engine. *)
Definition healable {A} (op : Op A) : Prop :=
  ∀ w a w', op w = (Fulfilled a, w') → op (heal w) = (Fulfilled a, heal w').



(** An Engine that fails every [add], and one that fails every [put]. *)
Definition addRefusingWorld : World :=
  mkWorld false (database sampleWorld)
    (λ r, match r with ReqAdd _ => Some "QuotaExceededError" | _ => None end)
    [] [].

Definition putRefusingWorld : World :=
  mkWorld false (database sampleWorld)
    (λ r, match r with ReqPut _ _ => Some "UnknownError" | _ => None end)
    [] [].

Arguments keysGetKey : simpl never.
Arguments indexesGetKey : simpl never.
Arguments getRecord : simpl never.
Arguments openCursorPrev : simpl never.
Arguments addRecord : simpl never.
Arguments putRecord : simpl never.
Arguments deleteRecord : simpl never.
Arguments recordsFrom : simpl never.
Arguments decrement : simpl never.
Arguments StructuredSerialize : simpl never.
Arguments StructuredDeserialize : simpl never.

(** ** The object store: lookups and writes *)

Section store_lemmas.
Implicit Types (rs pre post : list StoredRecord) (r : StoredRecord)
               (e : Entry) (pk i : Z) (k : string).

Lemma find_split (f : StoredRecord → bool) rs r :
  find f rs = Some r →
  ∃ pre post, rs = pre ++ r :: post ∧ f r = true ∧ Forall (λ x, f x = false) pre.
Proof.
  induction rs as [|x rs IH]; simpl; [done|].
  destruct (f x) eqn:Hx.
  - intros [= ->]. by exists [], rs.
  - intros (pre & post & -> & ? & ?)%IH.
    exists (x :: pre), post. split_and!; [done..|by constructor].
Qed.

Lemma find_none_Forall (f : StoredRecord → bool) rs :
  find f rs = None ↔ Forall (λ x, f x = false) rs.
Proof.
  induction rs as [|x rs IH]; simpl.
  - split; [constructor|done].
  - destruct (f x) eqn:Hx.
    + split; [done|]. inversion 1; congruence.
    + rewrite IH. split; [by constructor|by inversion 1].
Qed.

Lemma find_app_r (f : StoredRecord → bool) pre r post :
  Forall (λ x, f x = false) pre → f r = true →
  find f (pre ++ r :: post) = Some r.
Proof.
  induction 1 as [|x pre Hx _ IH]; simpl; intros Hr.
  - by rewrite Hr.
  - rewrite Hx. by apply IH.
Qed.

Lemma keysGetKey_None k rs :
  keysGetKey k rs = None ↔ k ∉ (λ r, key r.2) <$> rs.
Proof.
  unfold keysGetKey. rewrite fmap_None, find_none_Forall.
  rewrite list_elem_of_fmap, Forall_forall. split.
  - intros H (r & -> & Hr). specialize (H r Hr). by case_bool_decide.
  - intros H r Hr. case_bool_decide; [|done]. destruct H. by exists r.
Qed.

Lemma keysGetKey_Some k rs pk :
  keysGetKey k rs = Some pk →
  ∃ pre e post, rs = pre ++ (pk, e) :: post ∧ key e = k.
Proof.
  unfold keysGetKey. rewrite fmap_Some. intros ([pk' e] & Hf & ->).
  apply find_split in Hf as (pre & post & -> & Hk & _).
  case_bool_decide; [|done]. by exists pre, e, post.
Qed.
End store_lemmas.

Lemma filter_keep_all {A} (P : A → Prop) `{!∀ x, Decision (P x)} (l : list A) :
  Forall P l → filter P l = l.
Proof.
  induction 1 as [|x l Hx _ IH]; [done|].
  by rewrite filter_cons_True, IH.
Qed.

Lemma filter_drop_all {A} (P : A → Prop) `{!∀ x, Decision (P x)} (l : list A) :
  Forall (λ x, ¬ P x) l → filter P l = [].
Proof.
  induction 1 as [|x l Hx _ IH]; [done|].
  by rewrite filter_cons_False.
Qed.

Section sorted_store.
Implicit Types (rs pre post : list StoredRecord) (r : StoredRecord)
               (e : Entry) (pk i : Z) (k : string).

Lemma sorted_split pre pk e post :
  StronglySorted Z.lt (pre ++ (pk, e) :: post).*1 →
  Forall (λ r, r.1 < pk) pre ∧ Forall (λ r, pk < r.1) post.
Proof.
  rewrite fmap_app, fmap_cons, StronglySorted_app, StronglySorted_cons.
  intros (Hlt & _ & Hpost & _). split.
  - apply Forall_forall. intros r Hr. apply Hlt; [|left].
    apply list_elem_of_fmap. by exists r.
  - rewrite Forall_fmap in Hpost. exact Hpost.
Qed.

Lemma sorted_remove pre r post :
  StronglySorted Z.lt (pre ++ r :: post).*1 →
  StronglySorted Z.lt (pre ++ post).*1.
Proof.
  rewrite !fmap_app, fmap_cons, !StronglySorted_app, StronglySorted_cons.
  intros (Hlt & ? & _ & ?). split_and!; [|done..].
  intros x1 x2 ? ?. apply Hlt; [done|by right].
Qed.

Lemma storeRecord_append pk e rs :
  Forall (λ r, r.1 < pk) rs → storeRecord pk e rs = rs ++ [(pk, e)].
Proof.
  induction 1 as [|r rs Hr _ IH]; simpl; [done|].
  rewrite !decide_False by lia. by rewrite IH.
Qed.

Lemma storeRecord_replace pk e e0 pre post :
  Forall (λ r, r.1 < pk) pre → Forall (λ r, pk < r.1) post →
  storeRecord pk e (pre ++ (pk, e0) :: post) = pre ++ (pk, e) :: post.
Proof.
  intros Hpre _. induction Hpre as [|r pre Hr _ IH]; simpl.
  - rewrite decide_False by lia. by rewrite decide_True.
  - rewrite !decide_False by lia. by rewrite IH.
Qed.

Lemma getRecord_middle pk e pre post :
  Forall (λ r, r.1 < pk) pre →
  getRecord pk (pre ++ (pk, e) :: post) = Some e.
Proof.
  intros Hpre. unfold getRecord. rewrite (find_app_r _ _ (pk, e)); [done| |].
  - eapply Forall_impl; [done|]. intros r ?; simpl in *. case_bool_decide; [lia|done].
  - simpl. by case_bool_decide.
Qed.

Lemma getRecord_None pk rs :
  Forall (λ r, r.1 < pk) rs → getRecord pk rs = None.
Proof.
  intros Hrs. unfold getRecord. rewrite fmap_None, find_none_Forall.
  eapply Forall_impl; [done|]. intros r ?; simpl in *. case_bool_decide; [lia|done].
Qed.

Lemma deleteRecord_middle pk e pre post :
  Forall (λ r, r.1 < pk) pre → Forall (λ r, pk < r.1) post →
  deleteRecord pk (pre ++ (pk, e) :: post) = pre ++ post.
Proof.
  intros Hpre Hpost. unfold deleteRecord.
  rewrite filter_app, filter_cons_False by (simpl; tauto).
  f_equal; apply filter_keep_all; (eapply Forall_impl; [done|]);
    intros r ?; simpl in *; lia.
Qed.

Lemma recordsFrom_after pk pre post :
  Forall (λ r, r.1 < pk) pre → Forall (λ r, pk < r.1) post →
  recordsFrom pk (pre ++ post) = post.
Proof.
  intros Hpre Hpost. unfold recordsFrom. rewrite filter_app.
  rewrite (filter_drop_all _ pre), (filter_keep_all _ post); [done| |].
  - eapply Forall_impl; [done|]. intros r ?; simpl in *; lia.
  - eapply Forall_impl; [done|]. intros r ?; simpl in *; lia.
Qed.
End sorted_store.

(** ** The index [indexes] and the unique constraints *)

#[global] Instance byIndex_trans : Transitive byIndex.
Proof. intros a b c. unfold byIndex. lia. Qed.

#[global] Instance byIndex_total : Total byIndex.
Proof. intros a b. unfold byIndex. lia. Qed.

Section index_lemmas.
Implicit Types (rs pre post : list StoredRecord) (r : StoredRecord)
               (e : Entry) (pk i : Z) (k : string).

Lemma openCursorPrev_max rs :
  rs ≠ [] →
  ∃ r, openCursorPrev rs = Some r.2 ∧ r ∈ rs ∧
       Forall (λ x, index x.2 ≤ index r.2) rs.
Proof.
  intros Hne. unfold openCursorPrev, indexesView. rewrite head_reverse.
  pose proof (merge_sort_Permutation byIndex rs) as Hperm.
  pose proof (StronglySorted_merge_sort byIndex rs) as Hsorted.
  destruct (last (merge_sort byIndex rs)) as [r|] eqn:Hlast.
  - exists r. split; [done|].
    apply last_Some in Hlast as [l' Hl']. rewrite Hl' in Hperm, Hsorted.
    split.
    + rewrite <-Hperm. apply elem_of_app. right. by left.
    + rewrite <-Hperm. apply Forall_app. split; [|by repeat constructor].
      apply Forall_forall. intros x Hx.
      apply (StronglySorted_app_1_elem_of _ _ _ x r Hsorted Hx). by left.
  - apply last_None in Hlast. rewrite Hlast in Hperm.
    apply Permutation_nil in Hperm. done.
Qed.

Lemma lastObjectIndex_max rs :
  Forall (λ x, index x.2 ≤ lastObjectIndex rs) rs.
Proof.
  destruct (decide (rs = [])) as [->|Hne]; [constructor|].
  destruct (openCursorPrev_max rs Hne) as (r & Hr & _ & Hmax).
  unfold lastObjectIndex. by rewrite Hr.
Qed.

Lemma lastObjectIndex_ordinals rs :
  (λ r, index r.2) <$> rs = seqZ 0 (Z.of_nat (length rs)) →
  lastObjectIndex rs = Z.of_nat (length rs) - 1.
Proof.
  intros Hord.
  destruct (decide (rs = [])) as [->|Hne]; [done|].
  destruct (openCursorPrev_max rs Hne) as (r & Hr & Hin & Hmax).
  unfold lastObjectIndex. rewrite Hr.
  assert (index r.2 ∈ seqZ 0 (Z.of_nat (length rs))) as Hr'.
  { rewrite <-Hord. apply list_elem_of_fmap. by exists r. }
  apply elem_of_seqZ in Hr'.
  assert (Z.of_nat (length rs) - 1 ∈ (λ r, index r.2) <$> rs) as Hlast.
  { rewrite Hord. apply elem_of_seqZ. destruct rs; simpl in *; [done|lia]. }
  apply list_elem_of_fmap in Hlast as (x & Hx & Hxin).
  rewrite Forall_forall in Hmax. specialize (Hmax x Hxin). simpl in Hmax. lia.
Qed.

Lemma violatesUnique_false pk e rs :
  violatesUnique pk e rs = false ↔
  Forall (λ r, r.1 = pk ∨ (index r.2 ≠ index e ∧ key r.2 ≠ key e)) rs.
Proof.
  unfold violatesUnique. induction rs as [|r rs IH]; simpl.
  - split; [constructor|done].
  - rewrite orb_false_iff, IH, Forall_cons. apply and_iff_compat_r.
    repeat case_bool_decide; simpl; intuition congruence.
Qed.
End index_lemmas.

(** ** Writes that keep the unique indexes *)

Section write_lemmas.
Implicit Types (rs pre post : list StoredRecord) (r : StoredRecord)
               (e : Entry) (pk i : Z) (k : string) (st : ObjectStore).

Lemma addRecord_append e st :
  engineInvariant st →
  key e ∉ (λ r, key r.2) <$> records st →
  Forall (λ r, index r.2 < index e) (records st) →
  addRecord e st
  = Some (mkObjectStore (records st ++ [(keyGenerator st, e)]) (keyGenerator st + 1)).
Proof.
  intros [Hsorted Hgen] Hkey Hidx. unfold addRecord.
  rewrite getRecord_None by done.
  rewrite bool_decide_false by (by intros [? ?]). simpl.
  assert (violatesUnique (keyGenerator st) e (records st) = false) as ->.
  { apply violatesUnique_false, Forall_forall. intros r Hr. right.
    rewrite Forall_forall in Hidx. specialize (Hidx r Hr). simpl in Hidx.
    split; [lia|]. intros Heq. apply Hkey, list_elem_of_fmap. by exists r. }
  by rewrite storeRecord_append.
Qed.

Lemma putRecord_middle e e0 pk pre post kg :
  engineInvariant (mkObjectStore (pre ++ (pk, e0) :: post) kg) →
  Forall (λ r, index r.2 ≠ index e ∧ key r.2 ≠ key e) (pre ++ post) →
  putRecord e pk (mkObjectStore (pre ++ (pk, e0) :: post) kg)
  = Some (mkObjectStore (pre ++ (pk, e) :: post) kg).
Proof.
  intros [Hsorted Hgen] Hothers. simpl in *. unfold putRecord; simpl.
  destruct (sorted_split _ _ _ _ Hsorted) as [Hpre Hpost].
  apply Forall_app in Hothers as [Hopre Hopost].
  assert (violatesUnique pk e (pre ++ (pk, e0) :: post) = false) as ->.
  { apply violatesUnique_false, Forall_app. split; [|apply Forall_cons; split].
    - eapply Forall_impl; [exact Hopre|]. intros r ?; by right.
    - by left.
    - eapply Forall_impl; [exact Hopost|]. intros r ?; by right. }
  rewrite storeRecord_replace by done.
  apply Forall_app in Hgen as [_ Hgen]. apply Forall_cons in Hgen as [Hpk _].
  simpl in Hpk. do 2 f_equal. lia.
Qed.
End write_lemmas.

(** ** Stepping through an operation on a healthy Engine *)

Lemma guard_passes {A} (body : Op A) (w : World) :
  isDeleted w = false → (checkStorage;; body) w = body w.
Proof. intros Hw. unfold mbind, Op_bind, checkStorage. by rewrite Hw. Qed.

Lemma guard_rejects {A} (body : Op A) (w : World) :
  isDeleted w = true → (checkStorage;; body) w = (Rejected storageDeleted, w).
Proof. intros Hw. unfold mbind, Op_bind, checkStorage. by rewrite Hw. Qed.

Ltac unfold_ops :=
  unfold mbind, Op_bind, mret, Op_ret, indexedDB_open, transaction, keys_getKey,
    indexes_getKey, indexes_openCursor_prev, getHeap, notAwaited, neverSettles,
    objectStore_add, objectStore_put, objectStore_get, objectStore_delete,
    objectStore_openCursor, objectStore_clear, objectStore_count, cursor_continue,
    indexedDB_deleteDatabase, markDeleted, resolveCopy, request,
    setDatabase, setIsDeleted, setHeap, logged.

Lemma setItemAsync_new (k : string) (v : JsValue) (w : World) :
  isDeleted w = false → healthy w → engineInvariant (database w) →
  keysGetKey k (records (database w)) = None →
  let e := mkEntry (lastObjectIndex (records (database w)) + 1) k
             (StructuredSerialize (heap w) v) in
  setItemAsync k v w
  = (Fulfilled (),
     mkWorld false
       (mkObjectStore (records (database w) ++ [(keyGenerator (database w), e)])
                      (keyGenerator (database w) + 1))
       (failure w)
       (log w ++ [ReqOpen; ReqKeysGetKey k; ReqOpenCursorPrev; ReqAdd e])
       (heap w)).
Proof.
  intros Hlive Hw Hinv Hnew e. unfold setItemAsync.
  rewrite guard_passes by done.
  destruct w as [d st f lg h]; unfold healthy in Hw; simpl in *; subst d.
  unfold_ops. cbn. rewrite !Hw. cbn. rewrite Hnew. cbn. rewrite !Hw. cbn.
  change (match openCursorPrev (records st) with
          | Some last0 => index last0
          | None => -1
          end) with (lastObjectIndex (records st)).
  fold e. rewrite addRecord_append; cbn.
  - by rewrite <-!app_assoc.
  - done.
  - by apply keysGetKey_None.
  - eapply Forall_impl; [apply lastObjectIndex_max|]. intros r ?; simpl in *. lia.
Qed.

Lemma nodup_middle {B} (g : StoredRecord → B) (pre post : list StoredRecord)
    (r : StoredRecord) :
  NoDup (g <$> pre ++ r :: post) → Forall (λ x, g x ≠ g r) (pre ++ post).
Proof.
  rewrite fmap_app, fmap_cons, NoDup_app, NoDup_cons.
  intros (_ & Hpre & Hpost & _). apply Forall_app. split.
  - apply Forall_forall. intros x Hx Heq. apply (Hpre (g x)).
    + apply list_elem_of_fmap. by exists x.
    + rewrite Heq. by left.
  - apply Forall_forall. intros x Hx Heq. apply Hpost.
    rewrite <-Heq. apply list_elem_of_fmap. by exists x.
Qed.

Lemma keysGetKey_middle (pre post : list StoredRecord) (pk : Z) (e : Entry) :
  NoDup ((λ r : StoredRecord, key r.2) <$> pre ++ (pk, e) :: post) →
  keysGetKey (key e) (pre ++ (pk, e) :: post) = Some pk.
Proof.
  intros Hnd%nodup_middle. apply Forall_app in Hnd as [Hpre _].
  unfold keysGetKey. rewrite (find_app_r _ _ (pk, e)); [done| |].
  - eapply Forall_impl; [exact Hpre|]. intros r ?; simpl in *.
    by case_bool_decide.
  - simpl. by case_bool_decide.
Qed.

Lemma ordinals_nodup (rs : list StoredRecord) :
  (λ r : StoredRecord, index r.2) <$> rs = seqZ 0 (Z.of_nat (length rs)) →
  NoDup ((λ r : StoredRecord, index r.2) <$> rs).
Proof. intros ->. apply NoDup_seqZ. Qed.

Lemma setItemAsync_existing (k : string) (v : JsValue) (w : World)
    (pre post : list StoredRecord) (pk : Z) (e0 : Entry) :
  isDeleted w = false → healthy w → storeInvariant (database w) →
  records (database w) = pre ++ (pk, e0) :: post → key e0 = k →
  let e := mkEntry (index e0) k (StructuredSerialize (heap w) v) in
  setItemAsync k v w
  = (Fulfilled (),
     mkWorld false
       (mkObjectStore (pre ++ (pk, e) :: post) (keyGenerator (database w)))
       (failure w)
       (log w ++ [ReqOpen; ReqKeysGetKey k; ReqGet pk; ReqPut e pk])
       (heap w)).
Proof.
  intros Hlive Hw [Heng Hord Hkeys] Hrs <- e. unfold setItemAsync.
  rewrite guard_passes by done.
  destruct w as [d [rs kg] f lg h]; unfold healthy in Hw; simpl in *; subst d rs.
  pose proof (eng_sorted _ Heng) as Hsorted. simpl in Hsorted.
  destruct (sorted_split _ _ _ _ Hsorted) as [Hpre Hpost].
  unfold_ops. cbn. rewrite !Hw. cbn.
  rewrite keysGetKey_middle by done. cbn. rewrite !Hw. cbn.
  rewrite getRecord_middle by done. cbn.
  destruct e0 as [i0 k0 s0]; cbn in *. rewrite !Hw. cbn.
  rewrite putRecord_middle; cbn.
  - by rewrite <-!app_assoc.
  - done.
  - apply ordinals_nodup, nodup_middle in Hord. apply nodup_middle in Hkeys.
    rewrite Forall_forall in Hord, Hkeys. apply Forall_forall. intros r Hr.
    specialize (Hord r Hr). specialize (Hkeys r Hr). by simpl in *.
Qed.

Lemma compact_healthy (todo : list StoredRecord) :
  ∀ (done : list StoredRecord) (d : bool) (kg : Z) (f : Request → option string)
    (lg : list Request) (h : Heap),
  (∀ r, f r = None) →
  engineInvariant (mkObjectStore (done ++ todo) kg) →
  NoDup ((λ r : StoredRecord, key r.2) <$> done ++ todo) →
  StronglySorted Z.lt
    (((λ r : StoredRecord, index r.2) <$> done)
     ++ ((λ r : StoredRecord, index r.2 - 1) <$> todo)) →
  compact todo (mkWorld d (mkObjectStore (done ++ todo) kg) f lg h)
  = (Fulfilled (),
     mkWorld d
       (mkObjectStore (done ++ ((λ r : StoredRecord, (r.1, decrement r.2)) <$> todo)) kg)
       f (lg ++ compactionRequests todo) h).
Proof.
  induction todo as [|[pk e] rest IH]; intros done d kg f lg h Hw Heng Hkeys Htarget.
  - cbn. unfold mret, Op_ret. by rewrite !app_nil_r.
  - cbn [compact]. unfold_ops. cbn. rewrite !Hw. cbn.
    rewrite putRecord_middle; cbn.
    + rewrite !Hw. cbn.
      replace (done ++ (pk, decrement e) :: rest)
        with ((done ++ [(pk, decrement e)]) ++ rest) by by rewrite <-app_assoc.
      rewrite IH.
      * unfold compactionRequests. cbn. by rewrite <-!app_assoc.
      * done.
      * destruct Heng as [Hs Hg]. simpl in *. split; simpl.
        -- by rewrite <-app_assoc, !fmap_app in *.
        -- rewrite <-app_assoc. rewrite !Forall_app, !Forall_cons in *. simpl in *.
           destruct Hg as (? & ? & ?). split_and!; first [done|constructor].
      * by rewrite <-app_assoc, !fmap_app in *.
      * by rewrite fmap_app, <-app_assoc.
    + done.
    + apply nodup_middle in Hkeys. rewrite Forall_forall in Hkeys.
      rewrite fmap_cons, StronglySorted_app, StronglySorted_cons in Htarget.
      destruct Htarget as (Hlt & _ & Hrest & _).
      apply Forall_app. split; apply Forall_forall; intros r Hr; simpl.
      * split; [|apply Hkeys, elem_of_app; by left].
        assert (index r.2 < index e - 1); [|lia].
        apply Hlt; [|by left]. apply list_elem_of_fmap. by exists r.
      * split; [|apply Hkeys, elem_of_app; by right].
        rewrite Forall_forall in Hrest.
        assert (index e - 1 < index r.2 - 1); [|lia].
        apply Hrest. apply list_elem_of_fmap. by exists r.
Qed.

(** ** Ordinals around a removed record *)

Lemma seqZ_sorted (m n : Z) : StronglySorted Z.lt (seqZ m n).
Proof.
  destruct (decide (n ≤ 0)) as [Hn|Hn]; [rewrite seqZ_nil by done; constructor|].
  rewrite <-(Z2Nat.id n) by lia. generalize (Z.to_nat n) as c. clear n Hn.
  intros c. revert m. induction c as [|c IH]; intros m.
  - rewrite seqZ_nil by done. constructor.
  - rewrite seqZ_cons by lia. constructor.
    + replace (Z.pred (Z.of_nat (S c))) with (Z.of_nat c) by lia. apply IH.
    + apply Forall_seqZ. lia.
Qed.

Lemma ordinals_split (pre post : list StoredRecord) (r : StoredRecord) :
  (λ r : StoredRecord, index r.2) <$> pre ++ r :: post
  = seqZ 0 (Z.of_nat (length (pre ++ r :: post))) →
  (λ r : StoredRecord, index r.2) <$> pre = seqZ 0 (Z.of_nat (length pre))
  ∧ index r.2 = Z.of_nat (length pre)
  ∧ (λ r : StoredRecord, index r.2) <$> post
    = seqZ (Z.of_nat (length pre) + 1) (Z.of_nat (length post)).
Proof.
  rewrite length_app, Nat2Z.inj_add, seqZ_app, fmap_app by lia. simpl length.
  intros [Hpre Hrest]%app_inj_1; [|by rewrite length_fmap, length_seqZ, Nat2Z.id].
  rewrite seqZ_cons, fmap_cons in Hrest by lia. injection Hrest as Hr Hpost.
  split_and!; [done|lia|]. rewrite Hpost. f_equal; lia.
Qed.

Lemma ordinals_closed (pre post : list StoredRecord) (r : StoredRecord) :
  (λ r : StoredRecord, index r.2) <$> pre ++ r :: post
  = seqZ 0 (Z.of_nat (length (pre ++ r :: post))) →
  ((λ r : StoredRecord, index r.2) <$> pre)
  ++ ((λ r : StoredRecord, index r.2 - 1) <$> post)
  = seqZ 0 (Z.of_nat (length (pre ++ post))).
Proof.
  intros (Hpre & _ & Hpost)%ordinals_split.
  rewrite length_app, Nat2Z.inj_add, seqZ_app by lia. rewrite Hpre. f_equal.
  transitivity (Z.add (-1) <$> ((λ r : StoredRecord, index r.2) <$> post)).
  - rewrite <-list_fmap_compose. apply list_fmap_ext. intros ? x ?; simpl. lia.
  - rewrite Hpost, fmap_add_seqZ. f_equal; lia.
Qed.

Lemma removeItemAsync_absent (k : string) (w : World) :
  isDeleted w = false → healthy w →
  keysGetKey k (records (database w)) = None →
  removeItemAsync k w
  = (Fulfilled (),
     mkWorld false (database w) (failure w)
       (log w ++ [ReqOpen; ReqKeysGetKey k]) (heap w)).
Proof.
  intros Hlive Hw Hnew. unfold removeItemAsync.
  rewrite guard_passes by done.
  destruct w as [d st f lg h]; unfold healthy in Hw; simpl in *; subst d.
  unfold_ops. cbn. rewrite !Hw. cbn. rewrite Hnew. cbn.
  by rewrite <-!app_assoc.
Qed.

Lemma removeItemAsync_present (k : string) (w : World)
    (pre post : list StoredRecord) (pk : Z) (e0 : Entry) :
  isDeleted w = false → healthy w → storeInvariant (database w) →
  records (database w) = pre ++ (pk, e0) :: post → key e0 = k →
  removeItemAsync k w
  = (Fulfilled (),
     mkWorld false
       (mkObjectStore
          (pre ++ ((λ r : StoredRecord, (r.1, decrement r.2)) <$> post))
          (keyGenerator (database w)))
       (failure w)
       (log w ++ [ReqOpen; ReqKeysGetKey k; ReqDelete pk; ReqOpenCursor pk]
              ++ compactionRequests post)
       (heap w)).
Proof.
  intros Hlive Hw [Heng Hord Hkeys] Hrs <-. unfold removeItemAsync.
  rewrite guard_passes by done.
  destruct w as [d [rs kg] f lg h]; unfold healthy in Hw; simpl in *; subst d rs.
  pose proof (eng_sorted _ Heng) as Hsorted. simpl in Hsorted.
  destruct (sorted_split _ _ _ _ Hsorted) as [Hpre Hpost].
  unfold_ops. cbn. rewrite !Hw. cbn.
  rewrite keysGetKey_middle by done. cbn. rewrite !Hw. cbn.
  rewrite deleteRecord_middle, recordsFrom_after by done.
  rewrite compact_healthy; cbn.
  - by rewrite <-!app_assoc.
  - done.
  - destruct Heng as [Hs Hg]; simpl in *. split; simpl.
    + by eapply sorted_remove.
    + rewrite !Forall_app, Forall_cons in *. tauto.
  - rewrite !fmap_app, fmap_cons in Hkeys. rewrite fmap_app.
    apply NoDup_app in Hkeys as (? & Hdisj & [_ ?]%NoDup_cons).
    apply NoDup_app. split_and!; [done| |done].
    intros x Hx Hx'. apply (Hdisj x Hx). by right.
  - rewrite (ordinals_closed _ _ (pk, e0)) by done. apply seqZ_sorted.
Qed.

(** ** The invariant is kept *)

Section invariant_kept.
Implicit Types (rs pre post : list StoredRecord) (r : StoredRecord)
               (e : Entry) (pk kg : Z) (k : string) (st : ObjectStore).

Lemma invariant_empty kg : storeInvariant (mkObjectStore [] kg).
Proof. repeat split; simpl; constructor. Qed.

Lemma invariant_append st e :
  storeInvariant st →
  key e ∉ (λ r, key r.2) <$> records st →
  index e = Z.of_nat (length (records st)) →
  storeInvariant
    (mkObjectStore (records st ++ [(keyGenerator st, e)]) (keyGenerator st + 1)).
Proof.
  intros [[Hsorted Hgen] Hord Hkeys] Hk Hi. repeat split; simpl.
  - rewrite fmap_app. apply StronglySorted_app_2; [|done|repeat constructor].
    intros x1 x2 (r & -> & Hr)%list_elem_of_fmap ->%list_elem_of_singleton.
    rewrite Forall_forall in Hgen. by apply Hgen.
  - apply Forall_app. split; [|repeat constructor; simpl; lia].
    eapply Forall_impl; [done|]. intros r ?; simpl in *. lia.
  - rewrite fmap_app, length_app, Hord. simpl length.
    replace (length (records st) + 1)%nat with (S (length (records st))) by lia.
    rewrite seqZ_S. simpl. by rewrite Hi.
  - rewrite fmap_app. apply NoDup_app. split_and!; [done| |apply NoDup_singleton].
    intros x Hx ->%list_elem_of_singleton. done.
Qed.

Lemma invariant_replace pre post pk e0 e kg :
  storeInvariant (mkObjectStore (pre ++ (pk, e0) :: post) kg) →
  index e = index e0 → key e = key e0 →
  storeInvariant (mkObjectStore (pre ++ (pk, e) :: post) kg).
Proof.
  intros [[Hsorted Hgen] Hord Hkeys] Hi Hk. simpl in *. repeat split; simpl.
  - by rewrite fmap_app, fmap_cons in *.
  - rewrite !Forall_app, !Forall_cons in *. done.
  - rewrite fmap_app, fmap_cons, length_app in *. simpl in *. by rewrite Hi.
  - rewrite fmap_app, fmap_cons in *. simpl in *. by rewrite Hk.
Qed.

Lemma invariant_remove pre post pk e0 kg :
  storeInvariant (mkObjectStore (pre ++ (pk, e0) :: post) kg) →
  storeInvariant
    (mkObjectStore (pre ++ ((λ r, (r.1, decrement r.2)) <$> post)) kg).
Proof.
  intros [[Hsorted Hgen] Hord Hkeys]. simpl in *. repeat split; simpl.
  - apply sorted_remove in Hsorted.
    rewrite fmap_app, <-list_fmap_compose in *. done.
  - rewrite !Forall_app, Forall_cons, ?Forall_fmap in *.
    destruct Hgen as (? & ? & ?). done.
  - rewrite fmap_app, <-list_fmap_compose, length_app, length_fmap.
    rewrite <-length_app. by apply (ordinals_closed _ _ (pk, e0)).
  - rewrite fmap_app, <-list_fmap_compose.
    rewrite fmap_app, fmap_cons in Hkeys.
    apply NoDup_app in Hkeys as (? & Hdisj & [_ ?]%NoDup_cons).
    apply NoDup_app. split_and!; [done| |done].
    intros x Hx Hx'. apply (Hdisj x Hx). by right.
Qed.

Lemma keys_remove pre post pk e0 :
  NoDup ((λ r, key r.2) <$> pre ++ (pk, e0) :: post) →
  (λ r, key r.2) <$> pre ++ ((λ r, (r.1, decrement r.2)) <$> post)
  = filter (λ k', k' ≠ key e0) ((λ r, key r.2) <$> pre ++ (pk, e0) :: post).
Proof.
  intros Hnd%nodup_middle. apply Forall_app in Hnd as [Hpre Hpost].
  rewrite !fmap_app, fmap_cons, <-list_fmap_compose.
  rewrite filter_app, filter_cons_False by (simpl; tauto).
  rewrite !filter_keep_all; [done| |]; by apply Forall_fmap.
Qed.
End invariant_kept.

Lemma perform_keeps (c : Call) (w : World) :
  isDeleted w = false → healthy w → storeInvariant (database w) →
  (perform c w).1 = Fulfilled ()
  ∧ isDeleted (perform c w).2 = false
  ∧ healthy (perform c w).2
  ∧ storeInvariant (database (perform c w).2)
  ∧ keysOf (perform c w).2 = afterCall c (keysOf w).
Proof.
  intros Hlive Hw Hinv. unfold keysOf.
  destruct c as [k v|k]; simpl;
    destruct (keysGetKey k (records (database w))) as [pk|] eqn:Hfind.
  - apply keysGetKey_Some in Hfind as (pre & e0 & post & Hrs & Hk).
    rewrite (setItemAsync_existing k v w pre post pk e0) by done. simpl.
    destruct w as [d [rs kg] f lg h]; simpl in *; subst rs.
    split_and!; [done..| |].
    + by apply (invariant_replace _ _ _ e0).
    + rewrite decide_True.
      * rewrite !fmap_app, !fmap_cons. simpl. by rewrite Hk.
      * rewrite <-Hk. apply list_elem_of_fmap. exists (pk, e0). split; [done|].
        apply elem_of_app. right. by left.
  - rewrite setItemAsync_new by (done || apply Hinv). simpl.
    pose proof Hfind as Hnotin%keysGetKey_None.
    split_and!; [done..| |].
    + apply invariant_append; [done..|]. simpl.
      rewrite lastObjectIndex_ordinals by apply Hinv. lia.
    + rewrite decide_False by done. by rewrite fmap_app.
  - apply keysGetKey_Some in Hfind as (pre & e0 & post & Hrs & Hk).
    rewrite (removeItemAsync_present k w pre post pk e0) by done. simpl.
    destruct w as [d [rs kg] f lg h]; simpl in *; subst rs.
    split_and!; [done..| |].
    + by apply (invariant_remove _ _ pk e0).
    + rewrite <-Hk. apply keys_remove, Hinv.
  - rewrite removeItemAsync_absent by done. simpl.
    apply keysGetKey_None in Hfind.
    split_and!; [done..|].
    symmetry. apply filter_keep_all, Forall_forall. by intros x Hx ->.
Qed.

Lemma performAll_keeps (cs : list Call) (w : World) :
  isDeleted w = false → healthy w → storeInvariant (database w) →
  isDeleted (performAll cs w) = false
  ∧ healthy (performAll cs w)
  ∧ storeInvariant (database (performAll cs w))
  ∧ keysOf (performAll cs w) = survivors cs (keysOf w).
Proof.
  revert w. induction cs as [|c cs IH]; intros w Hlive Hw Hinv; simpl; [done|].
  destruct (perform_keeps c w) as (_ & ? & ? & ? & <-); [done..|].
  by apply IH.
Qed.

Lemma sizeAsync_healthy (w : World) :
  isDeleted w = false → healthy w →
  sizeAsync w
  = (Fulfilled (Z.of_nat (length (records (database w)))),
     mkWorld false (database w) (failure w) (log w ++ [ReqOpen; ReqCount]) (heap w)).
Proof.
  intros Hlive Hw. unfold sizeAsync. rewrite guard_passes by done.
  destruct w as [d st f lg h]; unfold healthy in Hw; simpl in *; subst d.
  unfold_ops. cbn. rewrite !Hw. cbn. by rewrite <-!app_assoc.
Qed.

(** C1.  Gapless ordinals: after any sequence of [set]/[remove] calls, each
    awaited before the next, on a live store that started empty, the ordinals
    present are exactly 0, 1, ..., size-1, each once; there are as many
    records as surviving keys, and the record holding ordinal [i] is that of
    the [i]-th surviving key in insertion order. *)
Theorem gapless_ordinals (w0 : World) (cs : list Call) :
  isDeleted w0 = false → healthy w0 → records (database w0) = [] →
  let w := performAll cs w0 in
  ∃ size : Z,
    (sizeAsync w).1 = Fulfilled size
    ∧ (λ r : StoredRecord, index r.2) <$> records (database w) ≡ₚ seqZ 0 size
    ∧ Z.of_nat (length (survivors cs [])) = size
    ∧ (λ r : StoredRecord, (index r.2, key r.2)) <$> records (database w)
      ≡ₚ zip (seqZ 0 size) (survivors cs []).
Proof.
  intros Hlive Hw Hempty w.
  destruct (performAll_keeps cs w0) as (Hlive' & Hw' & Hinv & Hkeys); [done..| |].
  { destruct w0 as [d [rs kg] f lg h]; simpl in *; subst rs.
    apply invariant_empty. }
  fold w in Hlive', Hw', Hinv, Hkeys.
  unfold keysOf in Hkeys. rewrite Hempty in Hkeys. simpl in Hkeys.
  exists (Z.of_nat (length (records (database w)))).
  rewrite sizeAsync_healthy by done. split_and!; [done| | |].
  - by rewrite (inv_ordinals _ Hinv).
  - by rewrite <-Hkeys, length_fmap.
  - rewrite <-Hkeys, <-(inv_ordinals _ Hinv).
    by rewrite zip_with_fmap_l, zip_with_fmap_r, zip_with_diag.
Qed.

Lemma visitedOrdinals_compaction (post : list StoredRecord) :
  visitedOrdinals (compactionRequests post)
  = (λ r : StoredRecord, index r.2) <$> post.
Proof.
  unfold visitedOrdinals, compactionRequests.
  induction post as [|[pk e] post IH]; [done|].
  cbn. unfold decrement at 1. cbn. f_equal; [lia|]. exact IH.
Qed.

Lemma Forall_ordinals (P : Z → Prop) (rs : list StoredRecord) :
  Forall P ((λ r : StoredRecord, index r.2) <$> rs) →
  Forall (λ r : StoredRecord, P (index r.2)) rs.
Proof. by rewrite Forall_fmap. Qed.

Lemma closeGap_below (i : Z) (rs : list StoredRecord) :
  Forall (λ r : StoredRecord, index r.2 ≤ i) rs → closeGap i <$> rs = rs.
Proof.
  induction 1 as [|r rs Hr _ IH]; [done|].
  rewrite fmap_cons, IH. unfold closeGap at 1. by rewrite decide_False by lia.
Qed.

Lemma closeGap_above (i : Z) (rs : list StoredRecord) :
  Forall (λ r : StoredRecord, i < index r.2) rs →
  closeGap i <$> rs = (λ r : StoredRecord, (r.1, decrement r.2)) <$> rs.
Proof.
  induction 1 as [|r rs Hr _ IH]; [done|].
  rewrite !fmap_cons, IH. unfold closeGap at 1. by rewrite decide_True by lia.
Qed.

(** C2.  Remove semantics: on a live store, [remove(k)] of an absent key
    succeeds and leaves the object store as it was; of a present key it
    succeeds, takes out exactly the record of [k], lowers by one the ordinal
    of exactly the records whose ordinal was greater, keeps the others and the
    order of all, and the cursor rewrites the records of ordinals
    [i+1, i+2, ..., size-1] in that order, [i] being the removed ordinal. *)
Theorem remove_semantics (w : World) (k : string) :
  isDeleted w = false → healthy w → storeInvariant (database w) →
  let rs := records (database w) in
  let w' := (removeItemAsync k w).2 in
  (removeItemAsync k w).1 = Fulfilled ()
  ∧ (k ∉ keysOf w → database w' = database w)
  ∧ (∀ pk e, (pk, e) ∈ rs → key e = k →
       records (database w')
       = closeGap (index e) <$> filter (λ r : StoredRecord, key r.2 ≠ k) rs
       ∧ visitedOrdinals (drop (length (log w)) (log w'))
         = seqZ (index e + 1) (Z.of_nat (length rs) - 1 - index e)).
Proof.
  intros Hlive Hw Hinv rs w'. subst w'.
  destruct (keysGetKey k (records (database w))) as [pk0|] eqn:Hfind.
  - apply keysGetKey_Some in Hfind as (pre & e0 & post & Hrs & Hk).
    rewrite (removeItemAsync_present k w pre post pk0 e0) by done. simpl.
    split_and!; [done| |].
    + intros Habsent. destruct Habsent. unfold keysOf. rewrite Hrs, <-Hk.
      apply list_elem_of_fmap. exists (pk0, e0). split; [done|].
      apply elem_of_app. right. by left.
    + intros pk e Hin Hke. subst rs. rewrite Hrs in Hin |- *.
      pose proof (inv_keys _ Hinv) as Hkeys. rewrite Hrs in Hkeys.
      pose proof (inv_ordinals _ Hinv) as Hord. rewrite Hrs in Hord.
      assert ((pk, e) = (pk0, e0)) as [= -> ->].
      { apply nodup_middle in Hkeys. rewrite Forall_forall in Hkeys.
        apply elem_of_app in Hin as [Hin|[?|Hin]%elem_of_cons]; [|done|].
        - destruct (Hkeys (pk, e)); [apply elem_of_app; by left|]. simpl. congruence.
        - destruct (Hkeys (pk, e)); [apply elem_of_app; by right|]. simpl. congruence. }
      destruct (ordinals_split _ _ _ Hord) as (Hpre & Hi & Hpost). simpl in Hi.
      split.
      * pose proof (nodup_middle _ _ _ _ Hkeys) as [Hkpre Hkpost]%Forall_app.
        simpl in Hkpre, Hkpost. rewrite <-Hk.
        rewrite filter_app, filter_cons_False by (simpl; tauto).
        rewrite !filter_keep_all by done.
        rewrite fmap_app, closeGap_below, closeGap_above; [done| |].
        -- apply (Forall_ordinals (λ z, index e0 < z)).
           rewrite Hpost. apply Forall_seqZ. lia.
        -- apply (Forall_ordinals (λ z, z ≤ index e0)).
           rewrite Hpre. apply Forall_seqZ. lia.
      * rewrite drop_app_length. cbn [app].
        change (visitedOrdinals (?a :: ?b :: ?c :: ?d :: ?l)) with (visitedOrdinals l).
        rewrite visitedOrdinals_compaction, Hpost, Hi. f_equal.
        rewrite length_app. simpl. lia.
  - rewrite removeItemAsync_absent by done. simpl.
    split_and!; [done..|].
    intros pk e Hin Hke. apply keysGetKey_None in Hfind. destruct Hfind.
    rewrite <-Hke. apply list_elem_of_fmap. by exists (pk, e).
Qed.

(** C3.  Append semantics: [set(k, v)] of a key that has no record succeeds
    and appends one record, with key [k], the value [v] as serialized at the
    call, and ordinal [currentMaxOrdinal + 1], where [currentMaxOrdinal] is
    the ordinal of the first record of the ordinal index read downwards, or
    -1 when there is none; the records that were there are untouched, and on
    an empty store the new ordinal is 0. *)
Theorem append_semantics (w : World) (k : string) (v : JsValue) :
  isDeleted w = false → healthy w → engineInvariant (database w) →
  k ∉ keysOf w →
  let rs := records (database w) in
  let currentMaxOrdinal :=
    match head (reverse (indexesView rs)) with
    | Some first => index first.2
    | None => -1
    end in
  (setItemAsync k v w).1 = Fulfilled ()
  ∧ records (database (setItemAsync k v w).2)
    = rs ++ [(keyGenerator (database w),
              mkEntry (currentMaxOrdinal + 1) k (StructuredSerialize (heap w) v))]
  ∧ (rs = [] → currentMaxOrdinal + 1 = 0).
Proof.
  intros Hlive Hw Heng Hnew rs cmo.
  assert (cmo = lastObjectIndex rs) as ->.
  { subst cmo. unfold lastObjectIndex, openCursorPrev.
    by destruct (head (reverse (indexesView rs))). }
  rewrite setItemAsync_new by (done || by apply keysGetKey_None). simpl.
  split_and!; [done..|]. by intros ->.
Qed.

Lemma elem_of_records_split (rs : list StoredRecord) (r : StoredRecord) :
  r ∈ rs → ∃ pre post, rs = pre ++ r :: post.
Proof. apply list_elem_of_split. Qed.

Lemma replaceValue_others (k : string) (s : Serialized) (rs : list StoredRecord) :
  Forall (λ r : StoredRecord, key r.2 ≠ k) rs → replaceValue k s <$> rs = rs.
Proof.
  induction 1 as [|r rs Hr _ IH]; [done|].
  rewrite fmap_cons, IH. unfold replaceValue at 1. by rewrite decide_False.
Qed.

(** C8.  Update in place: [set(k, v)] of a key that has a record succeeds,
    replaces that record's value and nothing else: its ordinal, its key and
    its primary key stay, every other record stays as it was, and [size()]
    answers what it answered before. *)
Theorem update_in_place (w : World) (k : string) (v : JsValue) (pk : Z) (e : Entry) :
  isDeleted w = false → healthy w → storeInvariant (database w) →
  (pk, e) ∈ records (database w) → key e = k →
  let w' := (setItemAsync k v w).2 in
  (setItemAsync k v w).1 = Fulfilled ()
  ∧ records (database w')
    = replaceValue k (StructuredSerialize (heap w) v) <$> records (database w)
  ∧ (pk, mkEntry (index e) k (StructuredSerialize (heap w) v)) ∈ records (database w')
  ∧ (sizeAsync w').1 = (sizeAsync w).1.
Proof.
  intros Hlive Hw Hinv Hin Hk w'. subst w'.
  destruct (elem_of_records_split _ _ Hin) as (pre & post & Hrs).
  rewrite (setItemAsync_existing k v w pre post pk e) by done. simpl.
  pose proof (inv_keys _ Hinv) as Hkeys. rewrite Hrs in Hkeys.
  pose proof (nodup_middle _ _ _ _ Hkeys) as [Hkpre Hkpost]%Forall_app.
  simpl in Hkpre, Hkpost. rewrite Hk in Hkpre, Hkpost.
  split_and!; [done| | |].
  - rewrite Hrs, fmap_app, fmap_cons, !replaceValue_others by done.
    unfold replaceValue. simpl. rewrite decide_True by done. by rewrite Hk.
  - apply elem_of_app. right. by left.
  - rewrite !sizeAsync_healthy by done. simpl. rewrite Hrs.
    by rewrite !length_app.
Qed.

(** ** The scenario of the iteration test *)

(** C5.  Compaction and reuse: from an empty store, inserting [value],
    [value2], [value3], [value4] gives them ordinals 0 to 3; removing [value]
    and [value3] leaves [value2] and [value4] at 0 and 1; inserting [value5],
    [value], [value6] then gives value2(0), value4(1), value5(2), value(3),
    value6(4). *)
Theorem compaction_scenario :
  let w4 := performAll [CallSet "value" (JsNumber 10); CallSet "value2" (JsNumber 20);
                        CallSet "value3" (JsNumber 30); CallSet "value4" (JsNumber 40)]
              freshWorld in
  let w6 := performAll [CallRemove "value"; CallRemove "value3"] w4 in
  let w9 := performAll [CallSet "value5" (JsNumber 50); CallSet "value" (JsNumber 1);
                        CallSet "value6" (JsNumber 60)] w6 in
  ordinalsOf w4 = [("value", 0); ("value2", 1); ("value3", 2); ("value4", 3)]
  ∧ ordinalsOf w6 = [("value2", 0); ("value4", 1)]
  ∧ ordinalsOf w9
    = [("value2", 0); ("value4", 1); ("value5", 2); ("value", 3); ("value6", 4)]
  ∧ (keyAsync 3 w9).1 = Fulfilled (Some "value")
  ∧ (sizeAsync w9).1 = Fulfilled 5.
Proof. vm_compute. done. Qed.

(** ** The deleted state *)

Lemma deleteStorageAsync_fulfilled (w w' : World) :
  deleteStorageAsync w = (Fulfilled (), w') →
  isDeleted w = false ∧ failure w ReqDeleteDatabase = None ∧ isDeleted w' = true.
Proof.
  unfold deleteStorageAsync, checkStorage. unfold_ops.
  destruct (isDeleted w) eqn:Hd; [done|].
  destruct (failure w ReqDeleteDatabase); [done|]. cbn.
  by intros [= <-].
Qed.

(** C6.  Once [deleteStore()] has succeeded, [get], [set], [remove], [clear],
    [size], [keyAt] and [entries] are each rejected with the error of fixed
    message "This Storage was deleted!", and leave the world as it was: the
    flag is what they look at first, and no request reaches the Engine. *)
Theorem deleted_rejects_everything (w w' : World) :
  deleteStorageAsync w = (Fulfilled (), w') →
  storageDeleted = Error "This Storage was deleted!"
  ∧ (∀ k, getItemAsync k w' = (Rejected storageDeleted, w'))
  ∧ (∀ k v, setItemAsync k v w' = (Rejected storageDeleted, w'))
  ∧ (∀ k, removeItemAsync k w' = (Rejected storageDeleted, w'))
  ∧ clearAsync w' = (Rejected storageDeleted, w')
  ∧ sizeAsync w' = (Rejected storageDeleted, w')
  ∧ (∀ i, keyAsync i w' = (Rejected storageDeleted, w'))
  ∧ entries w' = (Rejected storageDeleted, w').
Proof.
  intros (_ & _ & Hd)%deleteStorageAsync_fulfilled.
  split_and!; [done|intros ..]; by apply guard_rejects.
Qed.

(** C9.  [deleteStore()] looks at the flag first too: once one call has
    succeeded, a second one is rejected with the same error and sends nothing
    to the Engine. *)
Theorem second_delete_rejected (w w' : World) :
  deleteStorageAsync w = (Fulfilled (), w') →
  deleteStorageAsync w' = (Rejected storageDeleted, w')
  ∧ log (deleteStorageAsync w').2 = log w'.
Proof.
  intros (_ & _ & Hd)%deleteStorageAsync_fulfilled.
  unfold deleteStorageAsync. by rewrite guard_rejects.
Qed.

Section engine_rejections.
Lemma ero_request {A} r (serve : ObjectStore → option (A * ObjectStore)) :
  engineRejectionsOnly (request r serve).
Proof.
  intros w m. unfold request.
  destruct (failure w r); [done|]. by destruct (serve _) as [[??]|].
Qed.

Lemma ero_bind {A B} (op : Op A) (k : A → Op B) :
  engineRejectionsOnly op → (∀ a, engineRejectionsOnly (k a)) →
  engineRejectionsOnly (op ≫= k).
Proof.
  intros Hop Hk w m. unfold mbind, Op_bind.
  specialize (Hop w m). destruct (op w) as [[a|e|] w1]; simpl in *.
  - apply Hk.
  - intros [= ->]. by apply Hop.
  - done.
Qed.

Lemma ero_ret {A} (a : A) : engineRejectionsOnly (mret a).
Proof. by intros w m. Qed.

Lemma ero_neverSettles {A} : engineRejectionsOnly (@neverSettles A).
Proof. by intros w m. Qed.

Lemma ero_getHeap : engineRejectionsOnly getHeap.
Proof. by intros w m. Qed.

Lemma ero_resolveCopy s : engineRejectionsOnly (resolveCopy s).
Proof. by intros w m. Qed.

Lemma ero_transaction {A} (body : Op A) :
  engineRejectionsOnly body → engineRejectionsOnly (transaction body).
Proof.
  intros Hbody w m. unfold transaction. specialize (Hbody w m).
  destruct (body w) as [[a|e|] w1]; simpl in *; [done| |done].
  intros [= ->]. by apply Hbody.
Qed.

Lemma ero_notAwaited (op : Op unit) : engineRejectionsOnly (notAwaited op).
Proof. intros w m. unfold notAwaited. by destruct (op w) as [[a|e|] w1]. Qed.

Lemma ero_compact range : engineRejectionsOnly (compact range).
Proof.
  induction range as [|[pk e] rest IH]; simpl; [apply ero_ret|].
  unfold objectStore_put, cursor_continue.
  repeat (apply ero_bind; [apply ero_request|intros _]). exact IH.
Qed.
End engine_rejections.

Create HintDb ero discriminated.
#[local] Hint Resolve ero_request ero_ret ero_neverSettles ero_getHeap
  ero_resolveCopy ero_transaction ero_notAwaited ero_compact : ero.

Ltac ero_steps :=
  unfold getItemAsync, setItemAsync, removeItemAsync, clearAsync, sizeAsync,
    keyAsync, indexedDB_open, keys_getKey, indexes_getKey, objectStore_get,
    objectStore_add, objectStore_put, objectStore_delete, objectStore_openCursor,
    objectStore_clear, objectStore_count, indexes_openCursor_prev;
  repeat first
    [ progress auto with ero
    | apply ero_transaction
    | apply ero_bind; [|intros ?]
    | match goal with |- engineRejectionsOnly (match ?x with _ => _ end) => destruct x end ].

Lemma past_guard_engine_only {A} (body : Op A) (w : World) :
  isDeleted w = false → engineRejectionsOnly body →
  ((checkStorage;; body) w).1 ≠ Rejected storageDeleted.
Proof. intros Hw Hbody. rewrite guard_passes by done. apply Hbody. Qed.

Lemma deleteStorageAsync_failed (w : World) (name : string) :
  isDeleted w = false → failure w ReqDeleteDatabase = Some name →
  deleteStorageAsync w = (Rejected (DOMException name), logged ReqDeleteDatabase w).
Proof.
  intros Hd Hf. unfold deleteStorageAsync. rewrite guard_passes by done.
  unfold_ops. by rewrite Hf.
Qed.

(** C10.  The flag follows the destructive step: when the Engine fails the
    deletion of the database, [deleteStore()] is rejected with the Engine's
    error, the flag stays false, the records are still there, and the guard
    lets the following data operations through; the flag is true after the
    call exactly when the Engine reported success. *)
Theorem failed_delete_leaves_store_active (w : World) :
  isDeleted w = false →
  let w' := (deleteStorageAsync w).2 in
  (∀ name, failure w ReqDeleteDatabase = Some name →
     (deleteStorageAsync w).1 = Rejected (DOMException name)
     ∧ isDeleted w' = false
     ∧ database w' = database w
     ∧ checkStorage w' = (Fulfilled (), w')
     ∧ (∀ k, (getItemAsync k w').1 ≠ Rejected storageDeleted)
     ∧ (∀ k v, (setItemAsync k v w').1 ≠ Rejected storageDeleted)
     ∧ (∀ k, (removeItemAsync k w').1 ≠ Rejected storageDeleted)
     ∧ (clearAsync w').1 ≠ Rejected storageDeleted
     ∧ (sizeAsync w').1 ≠ Rejected storageDeleted
     ∧ (∀ i, (keyAsync i w').1 ≠ Rejected storageDeleted))
  ∧ (isDeleted w' = true ↔ failure w ReqDeleteDatabase = None)
  ∧ (isDeleted w' = true ↔ (deleteStorageAsync w).1 = Fulfilled ()).
Proof.
  intros Hd w'. subst w'. split_and!.
  - intros name Hf. rewrite (deleteStorageAsync_failed w name) by done. simpl.
    assert (isDeleted (logged ReqDeleteDatabase w) = false) as Hd' by done.
    split_and!; [done..|by unfold checkStorage; rewrite Hd'| | | | | | ];
      intros; (apply past_guard_engine_only; [done|]); ero_steps.
  - unfold deleteStorageAsync. rewrite guard_passes by done. unfold_ops.
    destruct (failure w ReqDeleteDatabase); cbn; [by rewrite Hd|done].
  - unfold deleteStorageAsync. rewrite guard_passes by done. unfold_ops.
    destruct (failure w ReqDeleteDatabase); cbn; [by rewrite Hd|done].
Qed.

(** ** Values: copies on write and on read *)

Lemma shape_relocated (n : nat) (h frozen : Heap) (v : JsValue) :
  shape n (h ++ (relocateObject (length h) <$> frozen)) (relocateValue (length h) v)
  = shape n frozen v.
Proof.
  revert v. induction n as [|n IH]; intros [| | | | |l];
    cbn [shape relocateValue]; try done.
  rewrite lookup_app_r by lia.
  replace (length h + l - length h)%nat with l by lia.
  rewrite list_lookup_fmap. destruct (frozen !! l) as [o|]; simpl; [|done].
  f_equal. unfold relocateObject. rewrite <-list_fmap_compose.
  apply list_fmap_ext. intros i [p x] _. simpl. f_equal. apply IH.
Qed.

Lemma deserialize_deepEqual (h0 h : Heap) (v : JsValue) :
  deepEqual (StructuredDeserialize h (StructuredSerialize h0 v)).1
            (StructuredDeserialize h (StructuredSerialize h0 v)).2 h0 v.
Proof. intros n. apply shape_relocated. Qed.

Lemma getItemAsync_absent (k : string) (w : World) :
  isDeleted w = false → healthy w → k ∉ keysOf w →
  getItemAsync k w
  = (Fulfilled JsUndefined,
     mkWorld false (database w) (failure w)
       (log w ++ [ReqOpen; ReqKeysGetKey k]) (heap w)).
Proof.
  intros Hlive Hw Hnew%keysGetKey_None. unfold getItemAsync.
  rewrite guard_passes by done.
  destruct w as [d st f lg h]; unfold healthy in Hw; simpl in *; subst d.
  unfold_ops. cbn. rewrite !Hw. cbn. rewrite Hnew. cbn.
  by rewrite <-!app_assoc.
Qed.

Lemma getItemAsync_present (k : string) (w : World) (pk : Z) (e : Entry) :
  isDeleted w = false → healthy w → storeInvariant (database w) →
  (pk, e) ∈ records (database w) → key e = k →
  getItemAsync k w
  = (Fulfilled (StructuredDeserialize (heap w) (value e)).2,
     mkWorld false (database w) (failure w)
       (log w ++ [ReqOpen; ReqKeysGetKey k; ReqGet pk])
       (StructuredDeserialize (heap w) (value e)).1).
Proof.
  intros Hlive Hw Hinv Hin <-. unfold getItemAsync.
  rewrite guard_passes by done.
  destruct (elem_of_records_split _ _ Hin) as (pre & post & Hrs).
  destruct Hinv as [Heng Hord Hkeys].
  destruct w as [d [rs kg] f lg h]; unfold healthy in Hw; simpl in *; subst d rs.
  pose proof (eng_sorted _ Heng) as Hsorted. simpl in Hsorted.
  destruct (sorted_split _ _ _ _ Hsorted) as [Hpre Hpost].
  unfold_ops. cbn. rewrite !Hw. cbn.
  rewrite keysGetKey_middle by done. cbn. rewrite !Hw. cbn.
  rewrite getRecord_middle by done. cbn.
  by rewrite <-!app_assoc.
Qed.

Lemma setItemAsync_stores (k : string) (v : JsValue) (w : World) :
  isDeleted w = false → healthy w → storeInvariant (database w) →
  ∃ w1 pk e,
    setItemAsync k v w = (Fulfilled (), w1)
    ∧ isDeleted w1 = false ∧ healthy w1 ∧ storeInvariant (database w1)
    ∧ (pk, e) ∈ records (database w1)
    ∧ key e = k ∧ value e = StructuredSerialize (heap w) v.
Proof.
  intros Hlive Hw Hinv.
  destruct (perform_keeps (CallSet k v) w) as (_ & Hlive1 & Hw1 & Hinv1 & _);
    [done..|]. simpl in *.
  destruct (keysGetKey k (records (database w))) as [pk|] eqn:Hfind.
  - apply keysGetKey_Some in Hfind as (pre & e0 & post & Hrs & Hk).
    rewrite (setItemAsync_existing k v w pre post pk e0) in * by done.
    simpl in *.
    eexists _, pk, (mkEntry (index e0) k (StructuredSerialize (heap w) v)).
    split_and!; [done..| |done|done].
    simpl. apply elem_of_app. right. by left.
  - rewrite setItemAsync_new in * by (done || apply Hinv).
    simpl in *.
    eexists _, (keyGenerator (database w)),
      (mkEntry (lastObjectIndex (records (database w)) + 1) k
         (StructuredSerialize (heap w) v)).
    split_and!; [done..| |done|done].
    simpl. apply elem_of_app. right. by left.
Qed.

(** C4.  Deep-copy round trip: [set(k, v)] succeeds and [get(k)] right after
    it returns a value deeply equal to [v]; whatever the caller does to its
    own objects after the write (its heap becomes any [h2]), [get(k)] returns
    a value deeply equal to [v] as it was at the call of [set]; and whatever
    the caller then does to the objects it was handed (its heap becomes any
    [h3]), the next [get(k)] again returns a value deeply equal to that [v]. *)
Theorem deep_copy_round_trip (w : World) (k : string) (v : JsValue) :
  isDeleted w = false → healthy w → storeInvariant (database w) →
  ∃ w1, setItemAsync k v w = (Fulfilled (), w1) ∧
    (∃ v0 w0, getItemAsync k w1 = (Fulfilled v0, w0)
              ∧ deepEqual (heap w0) v0 (heap w) v) ∧
    ∀ h2 : Heap, ∃ v1 w2,
      getItemAsync k (setHeap h2 w1) = (Fulfilled v1, w2)
      ∧ deepEqual (heap w2) v1 (heap w) v
      ∧ ∀ h3 : Heap, ∃ v2 w3,
          getItemAsync k (setHeap h3 w2) = (Fulfilled v2, w3)
          ∧ deepEqual (heap w3) v2 (heap w) v.
Proof.
  intros Hlive Hw Hinv.
  destruct (setItemAsync_stores k v w)
    as (w1 & pk & e & Hset & Hlive1 & Hw1 & Hinv1 & Hin & Hk & Hv); [done..|].
  exists w1. split; [done|]. split.
  { rewrite (getItemAsync_present k w1 pk e) by done.
    eexists _, _. split; [done|]. simpl. rewrite Hv.
    apply deserialize_deepEqual. }
  intros h2.
  rewrite (getItemAsync_present k (setHeap h2 w1) pk e) by done.
  eexists _, _. split; [done|]. simpl. rewrite Hv. split.
  { apply deserialize_deepEqual. }
  intros h3.
  erewrite (getItemAsync_present k _ pk e); [|done..].
  eexists _, _. split; [done|]. simpl. rewrite Hv.
  apply deserialize_deepEqual.
Qed.

Lemma deserialize_defined (h h0 : Heap) (v : JsValue) :
  v ≠ JsUndefined →
  (StructuredDeserialize h (StructuredSerialize h0 v)).2 ≠ JsUndefined.
Proof. by destruct v. Qed.

Lemma set_then_get (k : string) (v : JsValue) (w : World) :
  isDeleted w = false → healthy w → storeInvariant (database w) →
  (getItemAsync k (setItemAsync k v w).2).1
  = Fulfilled (StructuredDeserialize (heap w) (StructuredSerialize (heap w) v)).2.
Proof.
  intros Hlive Hw Hinv.
  destruct (setItemAsync_stores k v w)
    as (w1 & pk & e & Hset & Hlive1 & Hw1 & Hinv1 & Hin & Hk & Hv); [done..|].
  rewrite Hset. simpl.
  rewrite (getItemAsync_present k w1 pk e) by done. simpl. rewrite Hv.
  assert (heap w1 = heap w) as ->; [|done].
  clear Hin. simpl in Hset.
  destruct (keysGetKey k (records (database w))) as [pk0|] eqn:Hfind.
  - apply keysGetKey_Some in Hfind as (pre & e0 & post & Hrs & Hk0).
    rewrite (setItemAsync_existing k v w pre post pk0 e0) in Hset by done.
    by injection Hset as <-.
  - rewrite setItemAsync_new in Hset by (done || apply Hinv).
    by injection Hset as <-.
Qed.

(** C7.  Unset versus null: [get(k)] answers [undefined] for a key with no
    record, and also for a key that was set to [undefined]; a key set to
    [null] reads back as [null]; the default overlay, consulted as the spec
    says, leaves a stored [null] (and any stored value other than
    [undefined]) alone, and substitutes only when [get] answered
    [undefined]. *)
Theorem unset_versus_null (w : World) (k : string) :
  isDeleted w = false → healthy w → storeInvariant (database w) →
  (k ∉ keysOf w → (getItemAsync k w).1 = Fulfilled JsUndefined)
  ∧ (getItemAsync k (setItemAsync k JsUndefined w).2).1 = Fulfilled JsUndefined
  ∧ (getItemAsync k (setItemAsync k JsNull w).2).1 = Fulfilled JsNull
  ∧ (∀ overlay,
       (getWithDefault overlay k (setItemAsync k JsNull w).2).1 = Fulfilled JsNull)
  ∧ (∀ overlay v, v ≠ JsUndefined →
       (getWithDefault overlay k (setItemAsync k v w).2).1
       = (getItemAsync k (setItemAsync k v w).2).1)
  ∧ (∀ overlay,
       (getWithDefault overlay k (setItemAsync k JsUndefined w).2).1
       = Fulfilled (default JsUndefined (overlay !! k)))
  ∧ (∀ overlay, k ∉ keysOf w →
       (getWithDefault overlay k w).1 = Fulfilled (default JsUndefined (overlay !! k))).
Proof.
  intros Hlive Hw Hinv.
  assert (∀ overlay v,
    (getWithDefault overlay k (setItemAsync k v w).2).1
    = Fulfilled
        (let r := (StructuredDeserialize (heap w) (StructuredSerialize (heap w) v)).2 in
         if decide (r = JsUndefined) then default JsUndefined (overlay !! k) else r))
    as Hoverlay.
  { intros overlay v. pose proof (set_then_get k v w Hlive Hw Hinv) as Hget.
    unfold getWithDefault, mbind, Op_bind.
    destruct (getItemAsync k (setItemAsync k v w).2) as [p w2].
    simpl in Hget. by rewrite Hget. }
  split_and!.
  - intros Hnew. by rewrite getItemAsync_absent.
  - by rewrite set_then_get.
  - by rewrite set_then_get.
  - intros overlay. by rewrite Hoverlay.
  - intros overlay v Hv. rewrite Hoverlay, set_then_get by done. simpl.
    rewrite decide_False; [done|].
    exact (deserialize_defined (heap w) (heap w) v Hv).
  - intros overlay. by rewrite Hoverlay.
  - intros overlay Hnew. unfold getWithDefault, mbind, Op_bind.
    by rewrite getItemAsync_absent.
Qed.

(** ** The properties at concrete stores *)

Lemma freshWorld_healthy : healthy freshWorld.
Proof. intros r. reflexivity. Qed.

Lemma sampleWorld_invariant : storeInvariant (database sampleWorld).
Proof.
  destruct (performAll_keeps
    [CallSet "value" (JsNumber 10); CallSet "value2" (JsNumber 20);
     CallSet "value3" (JsNumber 30); CallSet "value4" (JsNumber 40)] freshWorld)
    as (_ & _ & Hinv & _);
    [reflexivity|apply freshWorld_healthy|apply invariant_empty|exact Hinv].
Qed.

Lemma gapless_ordinals_witness :
  ∃ size : Z,
    (sizeAsync (performAll [CallSet "a" JsNull; CallSet "b" JsNull; CallRemove "a";
                            CallSet "c" JsNull] freshWorld)).1 = Fulfilled size
    ∧ (λ r : StoredRecord, index r.2)
        <$> records (database (performAll [CallSet "a" JsNull; CallSet "b" JsNull;
                                           CallRemove "a"; CallSet "c" JsNull] freshWorld))
      ≡ₚ seqZ 0 size
    ∧ Z.of_nat (length (survivors [CallSet "a" JsNull; CallSet "b" JsNull;
                                   CallRemove "a"; CallSet "c" JsNull] [])) = size
    ∧ (λ r : StoredRecord, (index r.2, key r.2))
        <$> records (database (performAll [CallSet "a" JsNull; CallSet "b" JsNull;
                                           CallRemove "a"; CallSet "c" JsNull] freshWorld))
      ≡ₚ zip (seqZ 0 size)
           (survivors [CallSet "a" JsNull; CallSet "b" JsNull; CallRemove "a";
                       CallSet "c" JsNull] []).
Proof.
  apply (gapless_ordinals freshWorld
           [CallSet "a" JsNull; CallSet "b" JsNull; CallRemove "a"; CallSet "c" JsNull]);
    [reflexivity|intros r; reflexivity|reflexivity].
Defined.

Lemma remove_semantics_witness :
  (removeItemAsync "value2" sampleWorld).1 = Fulfilled ()
  ∧ records (database (removeItemAsync "value2" sampleWorld).2)
    = closeGap 1 <$> filter (λ r : StoredRecord, key r.2 ≠ "value2")
                       (records (database sampleWorld))
  ∧ visitedOrdinals (drop (length (log sampleWorld))
                       (log (removeItemAsync "value2" sampleWorld).2))
    = seqZ 2 2.
Proof.
  destruct (remove_semantics sampleWorld "value2")
    as (Hok & _ & Hpresent);
    [reflexivity|intros r; reflexivity|apply sampleWorld_invariant|].
  split; [exact Hok|].
  apply (Hpresent 2 (mkEntry 1 "value2" (mkSerialized [] (JsNumber 20))));
    [|reflexivity].
  vm_compute. right. left.
Defined.

Lemma append_semantics_witness :
  (setItemAsync "value5" (JsNumber 50) sampleWorld).1 = Fulfilled ()
  ∧ records (database (setItemAsync "value5" (JsNumber 50) sampleWorld).2)
    = records (database sampleWorld)
      ++ [(5, mkEntry 4 "value5" (mkSerialized [] (JsNumber 50)))].
Proof.
  destruct (append_semantics sampleWorld "value5" (JsNumber 50))
    as (Hok & Hrecords & _);
    [reflexivity|intros r; reflexivity|apply sampleWorld_invariant| |].
  - vm_compute. intros H. repeat (inversion H as [|? ? ? H']; clear H; rename H' into H).
  - split; [exact Hok|exact Hrecords].
Defined.

Lemma deep_copy_round_trip_witness :
  ∃ w1, setItemAsync "value" (JsRef 0) callerWorld = (Fulfilled (), w1) ∧
    (∃ v0 w0, getItemAsync "value" w1 = (Fulfilled v0, w0)
              ∧ deepEqual (heap w0) v0 (heap callerWorld) (JsRef 0)) ∧
    ∀ h2 : Heap, ∃ v1 w2,
      getItemAsync "value" (setHeap h2 w1) = (Fulfilled v1, w2)
      ∧ deepEqual (heap w2) v1 (heap callerWorld) (JsRef 0)
      ∧ ∀ h3 : Heap, ∃ v2 w3,
          getItemAsync "value" (setHeap h3 w2) = (Fulfilled v2, w3)
          ∧ deepEqual (heap w3) v2 (heap callerWorld) (JsRef 0).
Proof.
  apply (deep_copy_round_trip callerWorld "value" (JsRef 0));
    [reflexivity|intros r; reflexivity|apply invariant_empty].
Defined.

(** The copy test of the suite, with its two mutations: [a.c = [30]] after
    the write, [b.c = [40]] on the object read; every read sees
    [{ c: [40, 42] }]. *)
Example ref_problem :
  let a := JsRef 0 in
  let w1 := (setItemAsync "value" a callerWorld).2 in
  let w1' := setHeap (setProperty 0 "c" (JsRef 2) (heap w1 ++ [[("0", JsNumber 30)]])) w1 in
  let (read1, w2) := getItemAsync "value" w1' in
  let w2' :=
    match read1 with
    | Fulfilled (JsRef b) =>
        setHeap (setProperty b "c" (JsRef (length (heap w2)))
                   (heap w2 ++ [[("0", JsNumber 40)]])) w2
    | _ => w2
    end in
  let (read2, w3) := getItemAsync "value" w2' in
  let expected :=
    ShObject [("c", ShObject [("0", ShNumber 40); ("1", ShNumber 42)])] in
  shape 3 (heap w1') a = ShObject [("c", ShObject [("0", ShNumber 30)])]
  ∧ (∃ v1, read1 = Fulfilled v1 ∧ shape 3 (heap w2) v1 = expected)
  ∧ (∃ v2, read2 = Fulfilled v2 ∧ shape 3 (heap w3) v2 = expected).
Proof. vm_compute. split_and!; [done|by eexists..]. Qed.

Lemma deleted_rejects_everything_witness :
  sizeAsync (deleteStorageAsync sampleWorld).2
  = (Rejected (Error "This Storage was deleted!"), (deleteStorageAsync sampleWorld).2).
Proof.
  destruct (deleted_rejects_everything sampleWorld (deleteStorageAsync sampleWorld).2)
    as (_ & _ & _ & _ & _ & Hsize & _); [reflexivity|exact Hsize].
Defined.

Lemma unset_versus_null_witness :
  (getItemAsync "value" (setItemAsync "value" JsUndefined sampleWorld).2).1
  = Fulfilled JsUndefined
  ∧ (getItemAsync "value" (setItemAsync "value" JsNull sampleWorld).2).1
    = Fulfilled JsNull
  ∧ (getWithDefault {["value" := JsNumber 1]} "value"
       (setItemAsync "value" JsNull sampleWorld).2).1
    = Fulfilled JsNull.
Proof.
  destruct (unset_versus_null sampleWorld "value")
    as (_ & Hunset & Hnull & Hoverlay & _);
    [reflexivity|intros r; reflexivity|apply sampleWorld_invariant|].
  split_and!; [exact Hunset|exact Hnull|apply Hoverlay].
Defined.

Lemma update_in_place_witness :
  (setItemAsync "value2" (JsNumber 21) sampleWorld).1 = Fulfilled ()
  ∧ records (database (setItemAsync "value2" (JsNumber 21) sampleWorld).2)
    = replaceValue "value2" (mkSerialized [] (JsNumber 21))
        <$> records (database sampleWorld).
Proof.
  destruct (update_in_place sampleWorld "value2" (JsNumber 21) 2
              (mkEntry 1 "value2" (mkSerialized [] (JsNumber 20))))
    as (Hok & Hrecords & _);
    [reflexivity|intros r; reflexivity|apply sampleWorld_invariant
    |vm_compute; right; left|reflexivity|].
  split; [exact Hok|exact Hrecords].
Defined.

Lemma second_delete_rejected_witness :
  deleteStorageAsync (deleteStorageAsync sampleWorld).2
  = (Rejected storageDeleted, (deleteStorageAsync sampleWorld).2).
Proof.
  apply (second_delete_rejected sampleWorld (deleteStorageAsync sampleWorld).2).
  reflexivity.
Defined.

Lemma failed_delete_leaves_store_active_witness :
  (deleteStorageAsync refusingWorld).1 = Rejected (DOMException "UnknownError")
  ∧ isDeleted (deleteStorageAsync refusingWorld).2 = false
  ∧ (sizeAsync (deleteStorageAsync refusingWorld).2).1 ≠ Rejected storageDeleted.
Proof.
  destruct (failed_delete_leaves_store_active refusingWorld) as (Hfailed & _);
    [reflexivity|].
  destruct (Hfailed "UnknownError") as (Hrej & Hflag & _ & _ & _ & _ & _ & _ & Hsize & _);
    [reflexivity|].
  split_and!; [exact Hrej|exact Hflag|exact Hsize].
Defined.

(** ** Lookup by ordinal *)

Lemma indexesGetKey_middle (pre post : list StoredRecord) (pk : Z) (e : Entry) :
  NoDup ((λ r : StoredRecord, index r.2) <$> pre ++ (pk, e) :: post) →
  indexesGetKey (index e) (pre ++ (pk, e) :: post) = Some pk.
Proof.
  intros Hnd%nodup_middle. apply Forall_app in Hnd as [Hpre _].
  unfold indexesGetKey. rewrite (find_app_r _ _ (pk, e)); [done| |].
  - eapply Forall_impl; [exact Hpre|]. intros r ?; simpl in *.
    by case_bool_decide.
  - simpl. by case_bool_decide.
Qed.

Lemma indexesGetKey_None (i : Z) (rs : list StoredRecord) :
  i ∉ (λ r : StoredRecord, index r.2) <$> rs → indexesGetKey i rs = None.
Proof.
  intros Hi. unfold indexesGetKey. rewrite fmap_None, find_none_Forall.
  apply Forall_forall. intros r Hr. case_bool_decide; [|done].
  destruct Hi. apply list_elem_of_fmap. by exists r.
Qed.

Lemma keyAsync_healthy (i : Z) (w : World) :
  isDeleted w = false → healthy w → storeInvariant (database w) →
  (keyAsync i w).1
  = Fulfilled (if decide (0 ≤ i) then keysOf w !! Z.to_nat i else None)
  ∧ database (keyAsync i w).2 = database w.
Proof.
  intros Hlive Hw [Heng Hord Hkeys]. unfold keyAsync, keysOf.
  rewrite guard_passes by done.
  destruct w as [d [rs kg] f lg h]; unfold healthy in Hw; simpl in *; subst d.
  destruct (decide (0 ≤ i < Z.of_nat (length rs))) as [Hin|Hout].
  - destruct (lookup_lt_is_Some_2 rs (Z.to_nat i)) as [[pk e] Hr]; [lia|].
    pose proof (f_equal (λ l, l !! Z.to_nat i) Hord) as Hi. simpl in Hi.
    rewrite list_lookup_fmap, Hr, lookup_seqZ_lt in Hi by lia.
    injection Hi as Hi. simpl in Hi.
    apply list_elem_of_split_length in Hr as (pre & post & -> & Hlen).
    assert (index e = i) as <- by lia.
    pose proof (eng_sorted _ Heng) as Hsorted. simpl in Hsorted.
    destruct (sorted_split _ _ _ _ Hsorted) as [Hpre Hpost].
    unfold_ops. cbn. rewrite !Hw. cbn.
    rewrite indexesGetKey_middle by by apply ordinals_nodup.
    cbn. rewrite !Hw. cbn. rewrite getRecord_middle by done. cbn.
    rewrite decide_True by lia. split; [|done]. f_equal.
    rewrite list_lookup_fmap, lookup_app_r by lia.
    by replace (Z.to_nat (index e) - length pre)%nat with 0%nat by lia.
  - unfold_ops. cbn. rewrite !Hw. cbn.
    rewrite indexesGetKey_None; cbn.
    + split; [|done]. f_equal. case_decide; [|done].
      symmetry. apply lookup_ge_None_2. rewrite length_fmap. lia.
    + rewrite Hord, elem_of_seqZ. lia.
Qed.

(** X1.  [keyAsync] finds a record by its ordinal: for every record of the
    store it answers that record's key at that record's ordinal; at an index
    below 0 or at or above the number of records it answers [undefined]; and
    it leaves the object store as it was. *)
Theorem keyAsync_lookup (w : World) :
  isDeleted w = false → healthy w → storeInvariant (database w) →
  (∀ pk e, (pk, e) ∈ records (database w) →
     (keyAsync (index e) w).1 = Fulfilled (Some (key e)))
  ∧ (∀ i, ¬ (0 ≤ i < Z.of_nat (length (records (database w)))) →
       (keyAsync i w).1 = Fulfilled None)
  ∧ (∀ i, database (keyAsync i w).2 = database w).
Proof.
  intros Hlive Hw Hinv. split_and!.
  - intros pk e [j Hj]%list_elem_of_lookup_1.
    destruct (keyAsync_healthy (index e) w) as [-> _]; [done..|].
    pose proof (f_equal (λ l : list Z, l !! j) (inv_ordinals _ Hinv)) as Hi.
    cbv beta in Hi. unfold StoredRecord in *.
    rewrite list_lookup_fmap, Hj in Hi. simpl in Hi.
    symmetry in Hi.
    apply lookup_seqZ in Hi as [Hi Hlt].
    rewrite decide_True by lia. f_equal. unfold keysOf, StoredRecord.
    rewrite list_lookup_fmap. replace (Z.to_nat (index e)) with j by lia.
    by rewrite Hj.
  - intros i Hout. destruct (keyAsync_healthy i w) as [-> _]; [done..|].
    f_equal. case_decide; [|done]. apply lookup_ge_None_2.
    unfold keysOf. rewrite length_fmap. lia.
  - intros i. by destruct (keyAsync_healthy i w) as [_ ->].
Qed.

Lemma keyAsync_lookup_witness :
  (keyAsync 2 sampleWorld).1 = Fulfilled (Some "value3")
  ∧ (keyAsync 4 sampleWorld).1 = Fulfilled None
  ∧ (keyAsync (-1) sampleWorld).1 = Fulfilled None.
Proof.
  destruct (keyAsync_lookup sampleWorld) as (Hin & Hout & _);
    [reflexivity|intros r; reflexivity|apply sampleWorld_invariant|].
  split_and!.
  - apply (Hin 3 (mkEntry 2 "value3" (mkSerialized [] (JsNumber 30)))).
    vm_compute. do 2 right. left.
  - apply Hout. vm_compute. intros [_ H]. discriminate H.
  - apply Hout. vm_compute. intros [H _]. by apply H.
Defined.

(** X2.  Iteration order: after any sequence of awaited [set]/[remove] calls
    on a live store that started empty, [keyAsync(i)] answers the [i]-th key
    still present, counted from 0 in the order the keys were inserted, and
    [undefined] when there is no such key. *)
Theorem keyAsync_insertion_order (w0 : World) (cs : list Call) (i : Z) :
  isDeleted w0 = false → healthy w0 → records (database w0) = [] →
  (keyAsync i (performAll cs w0)).1
  = Fulfilled (if decide (0 ≤ i) then survivors cs [] !! Z.to_nat i else None).
Proof.
  intros Hlive Hw Hempty.
  destruct (performAll_keeps cs w0) as (Hlive' & Hw' & Hinv & Hkeys); [done..| |].
  { destruct w0 as [d [rs kg] f lg h]; simpl in *; subst rs.
    apply invariant_empty. }
  destruct (keyAsync_healthy i (performAll cs w0)) as [-> _]; [done..|].
  rewrite Hkeys. unfold keysOf. by rewrite Hempty.
Qed.

Lemma keyAsync_insertion_order_witness :
  (keyAsync 1 (performAll [CallSet "a" JsNull; CallSet "b" JsNull; CallRemove "a";
                           CallSet "c" JsNull; CallSet "a" JsNull] freshWorld)).1
  = Fulfilled (Some "c").
Proof.
  apply (keyAsync_insertion_order freshWorld
           [CallSet "a" JsNull; CallSet "b" JsNull; CallRemove "a";
            CallSet "c" JsNull; CallSet "a" JsNull] 1);
    [reflexivity|intros r; reflexivity|reflexivity].
Defined.

(** ** Clearing *)

Lemma clearAsync_healthy (w : World) :
  isDeleted w = false → healthy w →
  clearAsync w
  = (Fulfilled (),
     mkWorld false (mkObjectStore [] (keyGenerator (database w))) (failure w)
       (log w ++ [ReqOpen; ReqClear]) (heap w)).
Proof.
  intros Hlive Hw. unfold clearAsync. rewrite guard_passes by done.
  destruct w as [d st f lg h]; unfold healthy in Hw; simpl in *; subst d.
  unfold_ops. cbn. rewrite !Hw. cbn. by rewrite <-!app_assoc.
Qed.

(** X3.  [clearAsync] on a live store succeeds and removes every record:
    afterwards [size] answers 0, [get] answers [undefined] for every key,
    [keyAsync] answers [undefined] at every index, and the next key set gets
    ordinal 0, under the primary key the key generator had reached (the
    generator is not reset). *)
Theorem clear_resets (w : World) :
  isDeleted w = false → healthy w →
  let w' := (clearAsync w).2 in
  (clearAsync w).1 = Fulfilled ()
  ∧ (sizeAsync w').1 = Fulfilled 0
  ∧ (∀ k, (getItemAsync k w').1 = Fulfilled JsUndefined)
  ∧ (∀ i, (keyAsync i w').1 = Fulfilled None)
  ∧ (∀ k v, records (database (setItemAsync k v w').2)
            = [(keyGenerator (database w),
                mkEntry 0 k (StructuredSerialize (heap w) v))]).
Proof.
  intros Hlive Hw w'. subst w'. rewrite clearAsync_healthy by done. simpl.
  set (w' := mkWorld _ _ _ _ _).
  assert (isDeleted w' = false) as Hlive' by done.
  assert (healthy w') as Hw' by done.
  assert (storeInvariant (database w')) as Hinv' by apply invariant_empty.
  split_and!; [done| | | |].
  - by rewrite sizeAsync_healthy.
  - intros k. rewrite getItemAsync_absent; [done..|]. unfold keysOf. simpl.
    apply not_elem_of_nil.
  - intros i. destruct (keyAsync_healthy i w') as [-> _]; [done..|].
    f_equal. by case_decide.
  - intros k v. rewrite setItemAsync_new; [done|done|done|apply Hinv'|].
    apply keysGetKey_None. simpl. apply not_elem_of_nil.
Qed.

Lemma clear_resets_witness :
  (clearAsync sampleWorld).1 = Fulfilled ()
  ∧ (sizeAsync (clearAsync sampleWorld).2).1 = Fulfilled 0
  ∧ records (database (setItemAsync "again" JsNull (clearAsync sampleWorld).2).2)
    = [(5, mkEntry 0 "again" (mkSerialized [] JsNull))].
Proof.
  destruct (clear_resets sampleWorld) as (Hok & Hsize & _ & _ & Hset);
    [reflexivity|intros r; reflexivity|].
  split_and!; [exact Hok|exact Hsize|apply (Hset "again" JsNull)].
Defined.

(** ** What a failing Engine cannot do *)

Section keeps_store.
Lemma ks_read {A} r (answer : ObjectStore → A) :
  keepsStore (request r (λ st, Some (answer st, st))).
Proof. intros w. unfold request. by destruct (failure w r). Qed.

Lemma ks_bind {A B} (op : Op A) (k : A → Op B) :
  keepsStore op → (∀ a, keepsStore (k a)) → keepsStore (op ≫= k).
Proof.
  intros Hop Hk w. unfold mbind, Op_bind.
  destruct (Hop w) as [Hdb Hflag]. destruct (op w) as [[a|e|] w1]; simpl in *;
    [|done..].
  destruct (Hk a w1) as [Hdb' Hflag']. by rewrite Hdb', Hflag'.
Qed.

Lemma ks_ret {A} (a : A) : keepsStore (mret a).
Proof. by intros w. Qed.

Lemma ks_neverSettles {A} : keepsStore (@neverSettles A).
Proof. by intros w. Qed.

Lemma ks_resolveCopy s : keepsStore (resolveCopy s).
Proof. by intros w. Qed.

Lemma ks_checkStorage : keepsStore checkStorage.
Proof. intros w. unfold checkStorage. by destruct (isDeleted w) eqn:Hd. Qed.

Lemma ks_transaction {A} (body : Op A) :
  keepsStore body → keepsStore (transaction body).
Proof.
  intros Hbody w. unfold transaction. destruct (Hbody w) as [Hdb Hflag].
  by destruct (body w) as [[a|e|] w1].
Qed.
End keeps_store.

Ltac ks_steps :=
  unfold indexedDB_open, keys_getKey, indexes_getKey, objectStore_get,
    objectStore_count;
  repeat first
    [ apply ks_read | apply ks_ret | apply ks_neverSettles | apply ks_resolveCopy
    | apply ks_checkStorage | apply ks_transaction
    | apply ks_bind; [|intros ?]
    | match goal with |- keepsStore (match ?x with _ => _ end) => destruct x end ].

(** X4.  Reads never write: whatever the flag is and whatever requests the
    Engine fails, [getItemAsync], [sizeAsync] and [keyAsync] leave the object
    store, its key generator and the [isDeleted] flag as they were. *)
Theorem reads_leave_store :
  (∀ k, keepsStore (getItemAsync k))
  ∧ keepsStore sizeAsync
  ∧ (∀ i, keepsStore (keyAsync i)).
Proof.
  split_and!; [intros k|idtac|intros i];
    unfold getItemAsync, sizeAsync, keyAsync; ks_steps.
Qed.

Section all_or_nothing.
Lemma aon_guarded_transaction {A} (body : Op A) :
  allOrNothing (checkStorage;; indexedDB_open;; transaction body).
Proof.
  intros w. unfold mbind, Op_bind, checkStorage, indexedDB_open, request,
    transaction.
  destruct (isDeleted w) eqn:Hd; [done|].
  destruct (failure w ReqOpen); [done|]. simpl.
  by destruct (body _) as [[a|e|] w1].
Qed.
End all_or_nothing.


(** A compaction whose writes the Engine fails: the promise is rejected with
    the Engine's error and all four records are still there. *)
Example failed_compaction_rolls_back :
  removeItemAsync "value" putRefusingWorld
  = (Rejected (DOMException "UnknownError"),
     mkWorld false (database sampleWorld) (failure putRefusingWorld)
       [ReqOpen; ReqKeysGetKey "value"; ReqDelete 1; ReqOpenCursor 1;
        ReqPut (mkEntry 0 "value2" (mkSerialized [] (JsNumber 20))) 2]
       []).
Proof. reflexivity. Qed.

Section healable_runs.
Lemma heal_request {A} r (serve : ObjectStore → option (A * ObjectStore)) :
  healable (request r serve).
Proof.
  intros w a w'. unfold request. destruct (failure w r); [done|]. simpl.
  destruct (serve (database w)) as [[a' st]|]; [|done].
  by intros [= <- <-].
Qed.

Lemma heal_bind {A B} (op : Op A) (k : A → Op B) :
  healable op → (∀ a, healable (k a)) → healable (op ≫= k).
Proof.
  intros Hop Hk w b w'. unfold mbind, Op_bind.
  destruct (op w) as [[a|e|] w1] eqn:Hrun; [|done..].
  intros Hk'. rewrite (Hop w a w1 Hrun). by apply Hk.
Qed.

Lemma heal_ret {A} (a : A) : healable (mret a).
Proof. intros w a' w'. by intros [= <- <-]. Qed.

Lemma heal_checkStorage : healable checkStorage.
Proof.
  intros w a w'. unfold checkStorage. simpl.
  destruct (isDeleted w); [done|]. by intros [= <- <-].
Qed.

Lemma heal_transaction {A} (body : Op A) :
  healable body → healable (transaction body).
Proof.
  intros Hbody w a w'. unfold transaction.
  destruct (body w) as [[a'|e|] w1] eqn:Hrun; [|done..].
  intros [= <- <-]. by rewrite (Hbody w a' w1 Hrun).
Qed.

Lemma heal_compact range : healable (compact range).
Proof.
  induction range as [|[pk e] rest IH]; simpl; [apply heal_ret|].
  unfold objectStore_put, cursor_continue.
  repeat (apply heal_bind; [apply heal_request|intros _]). exact IH.
Qed.

Lemma heal_removeItemAsync k : healable (removeItemAsync k).
Proof.
  unfold removeItemAsync, indexedDB_open, keys_getKey, objectStore_delete,
    objectStore_openCursor.
  apply heal_bind; [apply heal_checkStorage|intros _].
  apply heal_bind; [apply heal_request|intros _].
  apply heal_transaction.
  apply heal_bind; [apply heal_request|intros [pk|]]; [|apply heal_ret].
  apply heal_bind; [apply heal_request|intros _].
  apply heal_bind; [apply heal_request|intros range].
  apply heal_compact.
Qed.
End healable_runs.

Lemma aon_removeItemAsync (k : string) : allOrNothing (removeItemAsync k).
Proof. apply aon_guarded_transaction. Qed.

Lemma removeItemAsync_any_engine (k : string) (w : World) :
  database (removeItemAsync k w).2 = database w
  ∨ database (removeItemAsync k w).2 = database (removeItemAsync k (heal w)).2.
Proof.
  pose proof (aon_removeItemAsync k w) as Hkeep.
  destruct (removeItemAsync k w) as [[a|e|] w'] eqn:Hrun; [|by left..].
  right. by rewrite (heal_removeItemAsync k w a w' Hrun).
Qed.

Lemma setItemAsync_any_engine (k : string) (v : JsValue) (w : World) :
  database (setItemAsync k v w).2 = database w
  ∨ database (setItemAsync k v w).2 = database (setItemAsync k v (heal w)).2.
Proof.
  destruct w as [d st f lg h]. unfold setItemAsync, checkStorage, heal.
  unfold_ops. cbn.
  destruct d; [by left|]. cbn.
  destruct (f ReqOpen); [by left|]. cbn.
  destruct (f (ReqKeysGetKey k)); [by left|]. cbn.
  destruct (keysGetKey k (records st)) as [pk|]; cbn.
  - destruct (f (ReqGet pk)); [by left|]. cbn.
    destruct (getRecord pk (records st)) as [[i0 k0 s0]|]; cbn; [|by left].
    destruct (f (ReqPut _ pk)); [by left|]. cbn.
    destruct (putRecord _ pk st); cbn; [by right|by left].
  - destruct (f ReqOpenCursorPrev); [by left|]. cbn.
    destruct (f (ReqAdd _)); [by left|]. cbn.
    destruct (addRecord _ st); cbn; [by right|by left].
Qed.

Lemma perform_any_engine (c : Call) (w : World) :
  storeInvariant (database w) → storeInvariant (database (perform c w).2).
Proof.
  intros Hinv.
  assert (database (perform c w).2 = database w
          ∨ database (perform c w).2 = database (perform c (heal w)).2) as [->| ->].
  { destruct c; [apply setItemAsync_any_engine|apply removeItemAsync_any_engine]. }
  - done.
  - destruct (isDeleted w) eqn:Hd.
    + assert (database (perform c (heal w)).2 = database w) as ->; [|done].
      destruct c; simpl; unfold setItemAsync, removeItemAsync;
        by rewrite guard_rejects.
    + by destruct (perform_keeps c (heal w)) as (_ & _ & _ & ? & _).
Qed.

(** X6.  The ordinals stay gapless whatever the Engine fails: for any flag
    and any set of failing requests, a sequence of awaited [set]/[remove]
    calls on a store whose ordinals are 0, 1, ..., size-1 in primary-key
    order and whose keys are distinct leaves a store of that kind. *)
Theorem invariant_survives_failures (w : World) (cs : list Call) :
  storeInvariant (database w) → storeInvariant (database (performAll cs w)).
Proof.
  revert w. induction cs as [|c cs IH]; intros w Hinv; simpl; [done|].
  by apply IH, perform_any_engine.
Qed.

Lemma invariant_survives_failures_witness :
  storeInvariant
    (database (performAll [CallRemove "value"; CallSet "value9" JsNull;
                           CallSet "value2" JsNull] putRefusingWorld)).
Proof.
  apply (invariant_survives_failures putRefusingWorld
           [CallRemove "value"; CallSet "value9" JsNull; CallSet "value2" JsNull]).
  apply sampleWorld_invariant.
Defined.

(** ** Keys do not touch each other *)







(** ** Removing and setting again *)

(** X8.  After [remove(k)] on a live store, [get(k)] answers [undefined], a
    second [remove(k)] changes nothing, and setting [k] again puts it last:
    [keyAsync] finds it at the ordinal equal to the number of records left,
    and [size] is that number plus one. *)
Theorem remove_then_set_again (w : World) (k : string) :
  isDeleted w = false → healthy w → storeInvariant (database w) →
  let w1 := (removeItemAsync k w).2 in
  let left := Z.of_nat (length (records (database w1))) in
  (getItemAsync k w1).1 = Fulfilled JsUndefined
  ∧ database (removeItemAsync k w1).2 = database w1
  ∧ (∀ v, (keyAsync left (setItemAsync k v w1).2).1 = Fulfilled (Some k)
          ∧ (sizeAsync (setItemAsync k v w1).2).1 = Fulfilled (left + 1)).
Proof.
  intros Hlive Hw Hinv w1 left.
  destruct (perform_keeps (CallRemove k) w) as (_ & Hlive1 & Hw1 & Hinv1 & Hkeys1);
    [done..|]. simpl in *. fold w1 in Hlive1, Hw1, Hinv1, Hkeys1.
  assert (k ∉ keysOf w1) as Habsent.
  { rewrite Hkeys1, list_elem_of_filter. tauto. }
  split_and!.
  - by rewrite getItemAsync_absent.
  - rewrite removeItemAsync_absent; [done..|]. by apply keysGetKey_None.
  - intros v.
    destruct (perform_keeps (CallSet k v) w1) as (_ & Hlive2 & Hw2 & Hinv2 & Hkeys2);
      [done..|]. simpl in *. rewrite decide_False in Hkeys2 by done.
    destruct (keyAsync_healthy left (setItemAsync k v w1).2) as [-> _]; [done..|].
    rewrite sizeAsync_healthy by done. simpl.
    rewrite decide_True by lia. rewrite Hkeys2. subst left. split; f_equal.
    + rewrite Nat2Z.id. unfold keysOf.
      rewrite lookup_app_r by by rewrite length_fmap.
      by rewrite length_fmap, Nat.sub_diag.
    + pose proof (f_equal length Hkeys2) as Hlen. unfold keysOf in Hlen.
      rewrite length_app, !length_fmap in Hlen. simpl in Hlen. lia.
Qed.

Lemma remove_then_set_again_witness :
  (getItemAsync "value" (removeItemAsync "value" sampleWorld).2).1
  = Fulfilled JsUndefined
  ∧ (keyAsync 3 (setItemAsync "value" (JsNumber 1)
                   (removeItemAsync "value" sampleWorld).2).2).1
    = Fulfilled (Some "value").
Proof.
  destruct (remove_then_set_again sampleWorld "value") as (Hget & _ & Hset);
    [reflexivity|intros r; reflexivity|apply sampleWorld_invariant|].
  split; [exact Hget|]. apply (Hset (JsNumber 1)).
Defined.

(** ** A write the class does not wait for *)

(** X9.  The append path does not wait for its [add]: when the Engine fails
    the [add] request, [setItemAsync] of a new key still fulfils its promise
    and the object store is as before, so the key has no record; the update
    path does listen to its [put], and when the Engine fails it the promise is
    rejected with the Engine's error and the store is as before. *)
Theorem unawaited_add_failure (w : World) (k : string) (v : JsValue) (name : string) :
  isDeleted w = false → engineInvariant (database w) →
  failure w ReqOpen = None → failure w (ReqKeysGetKey k) = None →
  (k ∉ keysOf w → failure w ReqOpenCursorPrev = None →
     (∀ e, failure w (ReqAdd e) = Some name) →
     (setItemAsync k v w).1 = Fulfilled ()
     ∧ database (setItemAsync k v w).2 = database w)
  ∧ (k ∈ keysOf w → (∀ pk, failure w (ReqGet pk) = None) →
     (∀ e pk, failure w (ReqPut e pk) = Some name) →
     (setItemAsync k v w).1 = Rejected (DOMException name)
     ∧ database (setItemAsync k v w).2 = database w).
Proof.
  intros Hlive Heng Hopen Hgetkey. unfold setItemAsync.
  rewrite guard_passes by done.
  destruct w as [d [rs kg] f lg h]; simpl in *; subst d. split.
  - intros Hnew%keysGetKey_None Hcursor Hadd. simpl in Hnew.
    unfold_ops. cbn. rewrite Hopen. cbn. rewrite Hgetkey, Hnew. cbn.
    rewrite Hcursor. cbn. by rewrite Hadd.
  - intros Hpresent Hget Hput.
    destruct (keysGetKey k rs) as [pk|] eqn:Hfind;
      [|by apply keysGetKey_None in Hfind].
    pose proof Hfind as (pre & e0 & post & -> & Hk)%keysGetKey_Some.
    pose proof (eng_sorted _ Heng) as Hsorted. simpl in Hsorted.
    destruct (sorted_split _ _ _ _ Hsorted) as [Hpre Hpost].
    unfold_ops. cbn. rewrite Hopen. cbn. rewrite Hgetkey, Hfind. cbn.
    rewrite Hget. cbn. rewrite getRecord_middle by done. cbn.
    destruct e0 as [i0 k0 s0]. cbn. by rewrite Hput.
Qed.

Lemma unawaited_add_failure_witness :
  (setItemAsync "value5" (JsNumber 50) addRefusingWorld).1 = Fulfilled ()
  ∧ database (setItemAsync "value5" (JsNumber 50) addRefusingWorld).2
    = database addRefusingWorld.
Proof.
  destruct (unawaited_add_failure addRefusingWorld "value5" (JsNumber 50)
              "QuotaExceededError") as [Happend _];
    [reflexivity|apply sampleWorld_invariant|reflexivity|reflexivity|].
  apply Happend; [|reflexivity|intros e; reflexivity].
  vm_compute. intros H. repeat (inversion H as [|? ? ? H']; clear H; rename H' into H).
Defined.

(** ** Rejections come from the Engine *)

Section surfaced_errors.











End surfaced_errors.





